(** * essence: forward/backward contracts of the layer library

    A shallow embedding of [src/net/module.py] and
    [src/src/modules/losses.py].

    Modelling conventions.
    - A numpy array is an [ndarray]: an explicit two-dimensional shape and
      its rows.  Entries are real numbers: float64 arithmetic is idealised
      as exact arithmetic, so [np.exp] is [exp], and [np.log] is [ln] on
      positive entries.  Where numpy would go on with [inf] or [nan]
      ([np.log] of an entry that is not positive) the run ends with
      [NonFinite]: the model says nothing about what follows.  Rounding is
      taken up separately, for [softmax.transform], in [f64].
    - Arrays live in a heap and are passed by reference ([loc]), as Python
      passes them: [self._x = x] stores an alias and [x -= m] writes through
      it.  Temporaries that never escape a method are plain values.
    - A module instance is its attribute dictionary; reading an attribute
      that was never assigned raises [AttributeError].
    - Methods are computations in a state-and-exception monad [M]; an
      exception keeps the state reached so far, as in Python.
    - [module.py] mixes tab and space indentation and is read as Python 2
      reads it, a tab reaching the next multiple of eight columns (Python 3
      refuses the file).  In [add_biases] and [matmul] the methods are
      indented by four spaces and their bodies reach column eight; the
      lines [def _cal_grad] and [def backward] that follow
      [matmul.forward] start with one tab, at column eight, and so belong
      to the body of [forward], after its [return]. *)

From Corelib Require Import PrimFloat.
From Stdlib Require Import Reals Lra Lia ZArith.
From stdpp Require Import gmap strings list fin_maps.

Local Open Scope string_scope.

(** ** Exceptions *)

(** The exceptions Python and numpy raise in the modelled code, the Slot's
    [UnknownParameter], and the [InvalidSequence] of the error taxonomy.
    [NonFinite] is no exception of Python: it ends a run in which numpy
    goes on with [inf] or [nan], values an array of reals cannot hold. *)
Inductive exn : Type :=
  | AttributeError (attr : string)
  | NameError (name : string)
  | TypeError
  | ValueError
  | ZeroDivisionError
  | UnknownParameter (name : string)
  | InvalidSequence
  | NonFinite.

Definition res (A : Type) : Type := exn + A.

Definition res_bind {A B : Type} (r : res A) (k : A → res B) : res B :=
  match r with
  | inl e => inl e
  | inr a => k a
  end.

(** ** Arrays *)

Record ndarray : Type := mkarr {
  shape0 : nat;
  shape1 : nat;
  data : list (list R)
}.

(** The rows agree with the declared shape. *)
Definition wf (a : ndarray) : Prop :=
  length (data a) = shape0 a ∧ Forall (λ r, length r = shape1 a) (data a).

Definition Rsum (l : list R) : R := foldr Rplus 0%R l.

(** Largest entry of a non-empty row; [0] stands in for the empty row, which
    the reductions below reject before asking. *)
Definition row_max (r : list R) : R :=
  match r with
  | [] => 0%R
  | v :: r' => foldr Rmax v r'
  end.

(** Element-wise unary operation ([np.exp], unary minus, and a binary
    operator with one scalar operand). *)
Definition np_map (f : R → R) (a : ndarray) : ndarray :=
  mkarr (shape0 a) (shape1 a) (map (map f) (data a)).

#[global] Instance Rlt_decision (a b : R) : Decision (a < b)%R := Rlt_dec a b.

(** Every entry is positive. *)
Definition positive (a : ndarray) : Prop :=
  Forall (Forall (λ v, (0 < v)%R)) (data a).

(** [np.log]: [ln] entry by entry where every entry is positive.  At an
    entry that is zero or negative numpy gives [-inf] or [nan] (and a
    warning) and carries on; the model stops there. *)
Definition np_log (a : ndarray) : res ndarray :=
  if decide (positive a) then inr (np_map ln a) else inl NonFinite.

(** One dimension of numpy's broadcasting rule. *)
Definition bdim (n m : nat) : res nat :=
  if (n =? m)%nat then inr n
  else if (n =? 1)%nat then inr m
  else if (m =? 1)%nat then inr n
  else inl ValueError.

(** Pairing along one dimension under broadcasting: equal lengths pair up,
    a length-one operand is repeated. *)
Definition bzip {A B : Type} (d : A) (n m : nat) (g : A → A → B)
    (la lb : list A) : list B :=
  if (n =? m)%nat then zip_with g la lb
  else if (n =? 1)%nat then map (g (hd d la)) lb
  else map (λ x, g x (hd d lb)) la.

(** Element-wise binary operation with broadcasting ([+], [-],
    [np.multiply], [np.divide]). *)
Definition np_bin (f : R → R → R) (a b : ndarray) : res ndarray :=
  res_bind (bdim (shape0 a) (shape0 b)) (λ n,
  res_bind (bdim (shape1 a) (shape1 b)) (λ m,
  inr (mkarr n m
         (bzip [] (shape0 a) (shape0 b)
               (bzip 0%R (shape1 a) (shape1 b) f)
               (data a) (data b))))).

(** [a.max(1, keepdims=True)]: a reduction without identity, refused on a
    zero-length axis. *)
Definition np_max1_keep (a : ndarray) : res ndarray :=
  if (shape1 a =? 0)%nat then inl ValueError
  else inr (mkarr (shape0 a) 1 (map (λ r, [row_max r]) (data a))).

(** [a.sum(1, keepdims=True)] *)
Definition np_sum1_keep (a : ndarray) : ndarray :=
  mkarr (shape0 a) 1 (map (λ r, [Rsum r]) (data a)).

(** Column [j] of the rows. *)
Definition column (j : nat) (rows : list (list R)) : list R :=
  map (λ r, nth j r 0%R) rows.

(** [a.sum(axis)] on a two-dimensional array; a negative axis counts from
    the last one. *)
Definition np_sum_axis (axis : Z) (a : ndarray) : res (list R) :=
  let ax := (if axis <? 0 then axis + 2 else axis)%Z in
  if (ax =? 0)%Z then inr (map (λ j, Rsum (column j (data a))) (seq 0 (shape1 a)))
  else if (ax =? 1)%Z then inr (map Rsum (data a))
  else inl ValueError.

(** [v.mean()] of a one-dimensional array. *)
Definition np_mean (v : list R) : R := (Rsum v / INR (length v))%R.

(** [a.mean()] of a two-dimensional array: the mean of all entries. *)
Definition np_mean_all (a : ndarray) : R :=
  (Rsum (map Rsum (data a)) / INR (shape0 a * shape1 a))%R.

(** [a.transpose()] *)
Definition np_transpose (a : ndarray) : ndarray :=
  mkarr (shape1 a) (shape0 a)
        (map (λ j, column j (data a)) (seq 0 (shape1 a))).

Definition dot_product (u v : list R) : R := Rsum (zip_with Rmult u v).

(** [a.dot(b)]: matrix product, refused when the inner dimensions differ. *)
Definition np_dot (a b : ndarray) : res ndarray :=
  if (shape1 a =? shape0 b)%nat then
    inr (mkarr (shape0 a) (shape1 b)
           (map (λ r, map (λ j, dot_product r (column j (data b)))
                          (seq 0 (shape1 b)))
                (data a)))
  else inl ValueError.

(** ** Python values, the Slot and the world *)

Definition loc : Type := nat.

Inductive pyval : Type :=
  | VNone
  | VInt (n : Z)
  | VFloat (r : R)
  | VArr (l : loc)
  | VSlot
  | VEmptyTuple
  | VPair (a b : pyval).

(** A gradient value handed to the Slot: one- or two-dimensional. *)
Inductive ndval : Type :=
  | N1 (v : list R)
  | N2 (a : ndarray).

(** Modelled from the spec: the parameter Slot is not among the sources.
    [val name] fetches a parameter array and fails with [UnknownParameter]
    when absent; [set_grad name fn args] accumulates the result of calling
    [fn] on [args] into the named parameter's gradient.  The accumulation
    point is kept as the list of reported gradients, most recent first. *)
Record Slot : Type := mkslot {
  params : gmap string ndarray;
  reported : list (string * ndval)
}.

Record world : Type := mkworld {
  heap : gmap loc ndarray;
  attrs : gmap string pyval;
  slot : Slot
}.

Definition set_heap (h : gmap loc ndarray) (σ : world) : world :=
  mkworld h (attrs σ) (slot σ).
Definition set_attrs (d : gmap string pyval) (σ : world) : world :=
  mkworld (heap σ) d (slot σ).
Definition set_slot (s : Slot) (σ : world) : world :=
  mkworld (heap σ) (attrs σ) s.

(** ** The monad of methods *)

Definition M (A : Type) : Type := world → res A * world.

Definition ret {A : Type} (a : A) : M A := λ σ, (inr a, σ).
Definition raise {A : Type} (e : exn) : M A := λ σ, (inl e, σ).
Definition bind {A B : Type} (c : M A) (k : A → M B) : M B :=
  λ σ, match c σ with
       | (inl e, σ') => (inl e, σ')
       | (inr a, σ') => k a σ'
       end.
Definition lift {A : Type} (r : res A) : M A := λ σ, (r, σ).

#[global] Instance M_ret : MRet M := @ret.
#[global] Instance M_bind : MBind M := λ A B k c, bind c k.

(** [self.name] *)
Definition getattr (name : string) : M pyval :=
  λ σ, match attrs σ !! name with
       | Some v => (inr v, σ)
       | None => (inl (AttributeError name), σ)
       end.

(** [self.name = v] *)
Definition setattr (name : string) (v : pyval) : M unit :=
  λ σ, (inr tt, set_attrs (<[name := v]> (attrs σ)) σ).

(** Contents of the array behind a reference. *)
Definition load (l : loc) : M ndarray :=
  λ σ, match heap σ !! l with
       | Some a => (inr a, σ)
       | None => (inl TypeError, σ)
       end.

(** In-place assignment of the contents of an existing array. *)
Definition store (l : loc) (a : ndarray) : M unit :=
  λ σ, (inr tt, set_heap (<[l := a]> (heap σ)) σ).

(** A new array object. *)
Definition alloc (a : ndarray) : M loc :=
  λ σ, let l := fresh (dom (heap σ)) in
       (inr l, set_heap (<[l := a]> (heap σ)) σ).

(** A value used as an array operand: anything but an array is a type
    error of the arithmetic. *)
Definition arr_of (v : pyval) : M ndarray :=
  match v with
  | VArr l => load l
  | _ => raise TypeError
  end.

(** [slot.val(name)] *)
Definition slot_val (name : string) : M ndarray :=
  λ σ, match params (slot σ) !! name with
       | Some a => (inr a, σ)
       | None => (inl (UnknownParameter name), σ)
       end.

(** The Slot's accumulation of one gradient value. *)
Definition slot_accumulate (name : string) (v : ndval) : M unit :=
  λ σ, (inr tt,
        set_slot (mkslot (params (slot σ)) ((name, v) :: reported (slot σ))) σ).

(** [slot.set_grad(name, fn, args...)], the call of [fn] on [args] being the
    computation [g]. *)
Definition slot_set_grad (name : string) (g : M ndval) : M unit :=
  v ← g; slot_accumulate name v.

(** [self._slot], which must be the Slot. *)
Definition self_slot : M unit :=
  s ← getattr "_slot";
  match s with
  | VSlot => ret tt
  | _ => raise (AttributeError "val")
  end.

(** A value used as a number. *)
Definition num_of (v : pyval) : M R :=
  match v with
  | VFloat r => ret r
  | _ => raise TypeError
  end.

(** Python's [a / b] on floats. *)
Definition py_div (a b : R) : M R :=
  if Req_dec_T b 0 then raise ZeroDivisionError else ret (a / b)%R.

(** A freshly created instance has an empty attribute dictionary; the
    constructor then runs on it. *)
Definition fresh_world (h : gmap loc ndarray) (s : Slot) : world :=
  mkworld h ∅ s.

(** ** [module.py] *)

Module net.

(** The methods a class offers once its configuration is fixed. *)
Record pyclass : Type := mkclass {
  c_setup : M unit;
  c_forward : loc → M pyval;
  c_backward : loc → M pyval
}.

(** [Module.__init__] *)
Definition Module_init (C : pyclass) : M unit :=
  setattr "_slot" VSlot;; c_setup C.

(** class Module: every method is [pass]. *)
Definition Module_setup : M unit := ret tt.
Definition Module_forward (x : loc) : M pyval := ret VNone.
Definition Module_backward (grad : loc) : M pyval := ret VNone.

Definition Module : pyclass :=
  mkclass Module_setup Module_forward Module_backward.

(** class reshape.  [ndarray.reshape] returns a view on the buffer of its
    argument, which a heap of whole arrays does not express, and what it
    makes of each shape value is numpy's affair: the method is the
    parameter [np_reshape], called with the array and the shape value. *)
Definition reshape_setup (shape : pyval) : M unit :=
  setattr "shape" shape;; setattr "old" VNone.

Definition reshape_forward (np_reshape : loc → pyval → M pyval) (x : loc) : M pyval :=
  xv ← load x;
  setattr "old" (VPair (VInt (Z.of_nat (shape0 xv))) (VInt (Z.of_nat (shape1 xv))));;
  s ← getattr "shape";
  np_reshape x s.

Definition reshape_backward (np_reshape : loc → pyval → M pyval) (grad : loc) : M pyval :=
  old ← getattr "old";
  np_reshape grad old.

Definition reshape (np_reshape : loc → pyval → M pyval) (shape : pyval) : pyclass :=
  mkclass (reshape_setup shape) (reshape_forward np_reshape)
          (reshape_backward np_reshape).

(** class Activate *)
Definition Activate_setup : M unit := setattr "activation" VNone.

Definition Activate_forward (transform : loc → M unit) (x : loc) : M pyval :=
  transform x;; getattr "activation".

(** class sigmoid *)
Definition sigmoid_transform (x : loc) : M unit :=
  xv ← load x;
  l ← alloc (np_map (λ v, 1 / v)%R
              (np_map (λ v, 1 + v)%R (np_map exp (np_map Ropp xv))));
  setattr "activation" (VArr l).

Definition sigmoid_backward (grad : loc) : M pyval :=
  a ← getattr "activation";
  av ← arr_of a;
  p ← lift (np_bin Rmult av (np_map (λ v, 1 - v)%R av));
  g ← load grad;
  r ← lift (np_bin Rmult g p);
  l ← alloc r;
  ret (VArr l).

Definition sigmoid : pyclass :=
  mkclass Activate_setup (Activate_forward sigmoid_transform) sigmoid_backward.

(** class linear *)
Definition linear_transform (x : loc) : M unit :=
  setattr "activation" (VArr x).

Definition linear_backward (grad : loc) : M pyval := ret (VArr grad).

Definition linear : pyclass :=
  mkclass Activate_setup (Activate_forward linear_transform) linear_backward.

(** class relu.  It defines [transform] and [partial] and no [backward], so
    [backward] resolves to [Module.backward]. *)
Definition relu_transform (x : loc) : M unit :=
  xv ← load x;
  l ← alloc (np_map (Rmax 0) xv);
  setattr "activation" (VArr l).

(** [partial] takes no [grad] argument and no global of that name exists. *)
Definition relu_partial : M pyval :=
  a ← getattr "activation";
  av ← arr_of a;
  let p := np_map (λ v, if Rlt_dec 0 v then 1 else 0)%R av in
  raise (NameError "grad").

Definition relu : pyclass :=
  mkclass Activate_setup (Activate_forward relu_transform) Module_backward.

(** class softmax *)
Definition softmax_transform (x : loc) : M unit :=
  xv ← load x;
  row_max ← lift (np_max1_keep xv);
  d ← lift (np_bin Rminus xv row_max);
  let e_x := np_map exp d in
  let e_sum := np_sum1_keep e_x in
  r ← lift (np_bin Rdiv e_x e_sum);
  l ← alloc r;
  setattr "activation" (VArr l).

Definition softmax_backward (grad : loc) : M pyval :=
  a ← getattr "activation";
  g ← load grad;
  av ← arr_of a;
  m ← lift (np_bin Rmult g av);
  g' ← lift (np_bin Rminus g (np_sum1_keep m));
  r ← lift (np_bin Rmult g' av);
  l ← alloc r;
  ret (VArr l).

Definition softmax : pyclass :=
  mkclass Activate_setup (Activate_forward softmax_transform) softmax_backward.

(** class add_biases.  A bias vector of length [f] is held as an array of
    shape [[1, f]], which is how broadcasting treats it. *)
Definition add_biases_forward (x : loc) : M pyval :=
  self_slot;;
  b ← slot_val "b";
  xv ← load x;
  r ← lift (np_bin Rplus xv b);
  l ← alloc r;
  ret (VArr l).

Definition add_biases_backward (grad : loc) : M pyval :=
  self_slot;;
  slot_set_grad "b" (g ← load grad; v ← lift (np_sum_axis (-1) g); ret (N1 v));;
  ret (VArr grad).

Definition add_biases : pyclass :=
  mkclass Module_setup add_biases_forward add_biases_backward.

(** class matmul.  [forward] ends at [return x.dot(w)]; the two [def]
    statements behind it, [_cal_grad] and [backward], sit in its body and
    are never reached.  The class defines [forward] only, and [backward]
    resolves to [Module.backward]. *)
Definition matmul_forward (x : loc) : M pyval :=
  setattr "_x" (VArr x);;
  self_slot;;
  w ← slot_val "w";
  xv ← load x;
  r ← lift (np_dot xv w);
  l ← alloc r;
  ret (VArr l).

Definition matmul : pyclass :=
  mkclass Module_setup matmul_forward Module_backward.

(** class drop.  The Bernoulli draw of [forward] is the argument [mask], of
    shape [[1, f]]. *)
Definition drop_setup (keep_prob : R) : M unit :=
  setattr "keep" (VFloat keep_prob).

Definition drop_forward (mask : ndarray) (x : loc) : M pyval :=
  xv ← load x;
  rl ← alloc mask;
  setattr "r" (VArr rl);;
  r ← getattr "r";
  rv ← arr_of r;
  xr ← lift (np_bin Rmult xv rv);
  k ← getattr "keep";
  kv ← num_of k;
  l ← alloc (np_map (λ v, v / kv)%R xr);
  ret (VArr l).

Definition drop_backward (grad : loc) : M pyval :=
  gv ← load grad;
  k ← getattr "keep";
  kv ← num_of k;
  let grad_mask := np_map (λ v, v / kv)%R gv in
  r ← getattr "r";
  rv ← arr_of r;
  res ← lift (np_bin Rmult grad_mask rv);
  l ← alloc res;
  ret (VArr l).

Definition drop (keep_prob : R) (mask : ndarray) : pyclass :=
  mkclass (drop_setup keep_prob) (drop_forward mask) drop_backward.

(** class Loss of [module.py] *)
Definition Loss_setup : M unit := setattr "_loss" VNone.

Definition Loss_forward (cal_loss : loc → M unit) (x : loc) : M pyval :=
  cal_loss x;; ret (VArr x).

Definition set_target (target : loc) : M unit := setattr "_t" (VArr target).


(** class l2 of [module.py] *)
Definition l2_cal_loss (x : loc) : M unit :=
  xv ← load x;
  t ← getattr "_t";
  tv ← arr_of t;
  d ← lift (np_bin Rminus xv tv);
  dl ← alloc d;
  setattr "_d" (VArr dl);;
  d' ← getattr "_d";
  dv ← arr_of d';
  l ← alloc (np_map (λ v, v ^ 2)%R dv);
  setattr "_loss" (VArr l).

Definition l2_backward (grad : loc) : M pyval :=
  d ← getattr "_d";
  dv ← arr_of d;
  l ← alloc (np_map (Rmult 2) dv);
  setattr "_loss" (VArr l);;
  ret VNone.

Definition l2 : pyclass :=
  mkclass Loss_setup (Loss_forward l2_cal_loss) l2_backward.

(** class crossent of [module.py].  An array has no method [divide], so
    [backward] stops at [self._t.divide]. *)
Definition crossent_cal_loss (x : loc) : M unit :=
  t ← getattr "_t";
  tv ← arr_of t;
  xv ← load x;
  lx ← lift (np_log xv);
  m ← lift (np_bin Rmult tv lx);
  setattr "_loss" (VFloat (np_mean_all m)).

Definition crossent_backward (grad : loc) : M pyval :=
  getattr "_t";;
  raise (AttributeError "divide").

Definition crossent : pyclass :=
  mkclass Loss_setup (Loss_forward crossent_cal_loss) crossent_backward.

End net.

(** ** [losses.py] *)

Module losses.

(** The two methods a loss class supplies to [Loss]. *)
Record lossclass : Type := mkloss {
  l_cal_loss : loc → M pyval;
  l_cal_grad : R → M pyval
}.

(** [Loss.__init__]: it does not call [Module.__init__]. *)
Definition Loss_init : M unit := setattr "_out_shape" VEmptyTuple.

(** [Loss.forward] *)
Definition forward (C : lossclass) (x truth : loc) : M pyval :=
  setattr "_t" (VArr truth);;
  l_cal_loss C x.

(** [Loss.backward] *)
Definition backward (C : lossclass) (grad : R) : M pyval :=
  g ← l_cal_grad C grad;
  ret (VPair g VNone).

(** class softmax_crossent *)
Definition softmax_crossent_cal_loss (x : loc) : M pyval :=
  xv ← load x;
  m ← lift (np_max1_keep xv);
  d ← lift (np_bin Rminus xv m);
  store x d;;
  xv' ← load x;
  let sum_e_x := np_sum1_keep (np_map exp xv') in
  lg ← lift (np_log sum_e_x);
  ls ← lift (np_bin Rminus xv' lg);
  l ← alloc ls;
  setattr "_log_soft" (VArr l);;
  t ← getattr "_t";
  tv ← arr_of t;
  ls' ← getattr "_log_soft";
  lsv ← arr_of ls';
  c ← lift (np_bin Rmult tv lsv);
  let crossed := np_map Ropp c in
  s ← lift (np_sum_axis 1 crossed);
  ret (VFloat (np_mean s)).

Definition softmax_crossent_cal_grad (grad : R) : M pyval :=
  t ← getattr "_t";
  tv ← arr_of t;
  q ← py_div 1 (INR (shape0 tv));
  let scalar := (q * grad)%R in
  ls ← getattr "_log_soft";
  lsv ← arr_of ls;
  d ← lift (np_bin Rminus (np_map exp lsv) tv);
  l ← alloc (np_map (Rmult scalar) d);
  ret (VArr l).

Definition softmax_crossent : lossclass :=
  mkloss softmax_crossent_cal_loss softmax_crossent_cal_grad.

(** The stabilising constant [1e-20]. *)
Definition eps : R := (/ 10 ^ 20)%R.

(** class crossent *)
Definition crossent_cal_loss (x : loc) : M pyval :=
  setattr "_x" (VArr x);;
  t ← getattr "_t";
  tv ← arr_of t;
  xv ← load x;
  lx ← lift (np_log xv);
  c ← lift (np_bin Rmult tv lx);
  let crossed := np_map Ropp c in
  s ← lift (np_sum_axis 1 crossed);
  ret (VFloat (np_mean s)).

Definition crossent_cal_grad (grad : R) : M pyval :=
  t ← getattr "_t";
  tv ← arr_of t;
  x ← getattr "_x";
  xv ← arr_of x;
  d ← lift (np_bin Rdiv tv (np_map (λ v, v + eps)%R xv));
  let dLdp := np_map Ropp d in
  b ← getattr "_batch";
  bv ← num_of b;
  q ← py_div 1 bv;
  l ← alloc (np_map (Rmult (q * grad)) dLdp);
  ret (VArr l).

Definition crossent : lossclass :=
  mkloss crossent_cal_loss crossent_cal_grad.

(** class l2 *)
Definition l2_cal_loss (x : loc) : M pyval :=
  xv ← load x;
  t ← getattr "_t";
  tv ← arr_of t;
  d ← lift (np_bin Rminus xv tv);
  dl ← alloc d;
  setattr "_diff" (VArr dl);;
  d' ← getattr "_diff";
  dv ← arr_of d';
  ret (VFloat (np_mean_all (np_map (λ v, v ^ 2)%R dv))).

Definition l2_cal_grad (grad : R) : M pyval :=
  d ← getattr "_diff";
  dv ← arr_of d;
  l ← alloc (np_map (Rmult grad) dv);
  ret (VArr l).

Definition l2 : lossclass := mkloss l2_cal_loss l2_cal_grad.

End losses.

(** ** [softmax.transform] in float64

    The same method once more, on rows of IEEE 754 binary64 numbers with
    the rounding of every operation, as numpy computes it.  [np.exp] is
    the parameter [np_exp]: its values are the C library's, of which only
    [exp(0) = 1] is used. *)

Module f64.

(** One step of [x.max]: the running maximum stays when it is [nan] or
    not below the next entry. *)
Definition np_maximum (a b : float) : float :=
  if (PrimFloat.leb b a || PrimFloat.is_nan a)%bool then a else b.

(** [max] over one row; a row without entries is refused. *)
Definition row_max (r : list float) : option float :=
  match r with
  | [] => None
  | v :: r' => Some (fold_left np_maximum r' v)
  end.

(** [sum] over one row, added from left to right: the order in which numpy
    adds a row of fewer than eight entries. *)
Definition row_sum (r : list float) : float := fold_left PrimFloat.add r 0%float.

(** [softmax.transform] on one row.  [None] where the model has no
    answer: a row without entries, on which [x.max] raises, and a row of
    eight or more entries, which numpy adds in blocks. *)
Definition transform_row (np_exp : float → float) (r : list float) : option (list float) :=
  if (8 <=? length r)%nat then None
  else
    row_max ← row_max r;
    let e_x := map (λ v, np_exp (PrimFloat.sub v row_max)) r in
    let e_sum := row_sum e_x in
    Some (map (λ v, PrimFloat.div v e_sum) e_x).

Definition transform (np_exp : float → float) (x : list (list float)) :
    option (list (list float)) :=
  mapM (transform_row np_exp) x.

End f64.

(** Six equal logits, and the float64 quotient [1/6]. *)
Definition six_zeros : list float := replicate 6 0%float.
Definition one_sixth : float := PrimFloat.div 1 6.

(** ** Quantities named by the specification *)

(** The array [x] with [c] added to every entry of row [i]. *)
Definition add_to_row (i : nat) (c : R) (x : ndarray) : ndarray :=
  mkarr (shape0 x) (shape1 x) (alter (map (λ v, v + c)%R) i (data x)).

(** What [softmax.transform] makes of one row. *)
Definition softmax_row (r : list R) : list R :=
  let e := map exp (map (λ v, v - row_max r)%R r) in
  map (λ v, v / Rsum e)%R e.

(** ** Concrete inputs *)

Definition empty_slot : Slot := mkslot ∅ [].

(** Logits [[0, 0]] and target [[1, 0]]. *)
Definition logits00 : ndarray := mkarr 1 2 [[0; 0]]%R.
Definition target10 : ndarray := mkarr 1 2 [[1; 0]]%R.

(** The all-ones array of shape [[n, m]]. *)
Definition ones (n m : nat) : ndarray :=
  mkarr n m (replicate n (replicate m 1%R)).

(** A matmul instance on a Slot holding [w], with [x] and [grad] on the
    heap at [0] and [1]. *)
Definition matmul_world (x w grad : ndarray) : world :=
  mkworld {[0%nat := x; 1%nat := grad]} {["_slot" := VSlot]}
          (mkslot {["w" := w]} []).

Definition x23 : ndarray := mkarr 2 3 [[1; 2; 3]; [4; 5; 6]]%R.
Definition w34 : ndarray :=
  mkarr 3 4 [[1; 0; 2; 0]; [0; 1; 0; 2]; [3; 0; 1; 1]]%R.

(** A module instance of class [C] right after construction. *)
Definition new_module (C : net.pyclass) (h : gmap loc ndarray) (s : Slot) : world :=
  (net.Module_init C (fresh_world h s)).2.

(** A loss instance right after construction. *)
Definition new_loss (h : gmap loc ndarray) : world :=
  (losses.Loss_init (fresh_world h empty_slot)).2.

(** An incoming gradient of shape [[2, 3]]. *)
Definition g23 : ndarray := mkarr 2 3 [[1; 2; 3]; [4; 5; 6]]%R.

(** Input [[1, -1]] and incoming gradient [[1, 1]] for relu. *)
Definition x_relu : ndarray := mkarr 1 2 [[1; -1]]%R.
Definition g_relu : ndarray := mkarr 1 2 [[1; 1]]%R.

(** Prediction [[3]] and target [[1]] for l2. *)
Definition x_l2 : ndarray := mkarr 1 1 [[3]]%R.
Definition t_l2 : ndarray := mkarr 1 1 [[1]]%R.

(** Probabilities [[1/2, 1/2]] for crossent. *)
Definition x_half : ndarray := mkarr 1 2 [[1 / 2; 1 / 2]]%R.

(** The states a [crossent] loss instance can be in: constructed, then any
    sequence of [forward] and [backward] calls with any arguments, the
    caller being free to change the arrays in between.  A call that raises
    leaves the instance in the state reached when it raised. *)
Inductive crossent_reachable : world → Prop :=
  | cr_new (h : gmap loc ndarray) :
      crossent_reachable (new_loss h)
  | cr_forward (σ : world) (x t : loc) :
      crossent_reachable σ →
      crossent_reachable (losses.forward losses.crossent x t σ).2
  | cr_backward (σ : world) (g : R) :
      crossent_reachable σ →
      crossent_reachable (losses.backward losses.crossent g σ).2
  | cr_heap (σ : world) (h : gmap loc ndarray) :
      crossent_reachable σ →
      crossent_reachable (set_heap h σ).

(** A computation that leaves the attribute [name] as it found it, whether
    it returns or raises. *)
Definition keeps_attr {A : Type} (name : string) (c : M A) : Prop :=
  ∀ σ : world, attrs (c σ).2 !! name = attrs σ !! name.

(** [logsumexp] of one row of logits. *)
Definition logsumexp (r : list R) : R := ln (Rsum (map exp r)).

(** The loss as the specification words it: the mean over the batch of the
    row sums of [-t ⊙ (x − logsumexp x)]. *)
Definition softmax_crossent_loss (x t : ndarray) : R :=
  np_mean (zip_with
             (λ xr tr, Rsum (zip_with (λ xv tv, - tv * (xv - logsumexp xr))%R xr tr))
             (data x) (data t)).

(** The gradient as the specification words it: [g · (softmax x − t) /
    batch_size], entry by entry. *)
Definition softmax_crossent_grad (g : R) (x t : ndarray) : ndarray :=
  mkarr (shape0 x) (shape1 x)
        (zip_with
           (λ xr tr,
              zip_with (λ xv tv,
                          g * (exp xv / Rsum (map exp xr) - tv) / INR (shape0 x))%R
                       xr tr)
           (data x) (data t)).

(** What [softmax_crossent._cal_loss] leaves in [x] and in [_log_soft]. *)
Definition shifted_rows (x : ndarray) : ndarray :=
  mkarr (shape0 x) (shape1 x) (map (λ r, map (λ v, v - row_max r)%R r) (data x)).

Definition log_soft_rows (x : ndarray) : ndarray :=
  mkarr (shape0 x) (shape1 x)
        (map (λ r, map (λ v, v - ln (Rsum (map exp r)))%R r) (data (shifted_rows x))).

(** Logits [[1, 2]] and target [[0, 1]]. *)
Definition logits12 : ndarray := mkarr 1 2 [[1; 2]]%R.
Definition target01 : ndarray := mkarr 1 2 [[0; 1]]%R.

(** Entry [(i, j)] of an array. *)
Definition entry (i j : nat) (a : ndarray) : R := nth j (nth i (data a) []) 0%R.

(** ** Frames *)

(** A computation that overwrites no existing array, whether it returns or
    raises; it may create new ones. *)
Definition keeps_arrays {A : Type} (c : M A) : Prop :=
  ∀ (σ : world) (l : loc) (a : ndarray),
    heap σ !! l = Some a → heap (c σ).2 !! l = Some a.

(** A computation that leaves the Slot as it found it. *)
Definition keeps_slot {A : Type} (c : M A) : Prop :=
  ∀ σ : world, slot (c σ).2 = slot σ.

(** A computation that leaves the parameters alone and reports at most one
    gradient, under [name]. *)
Definition reports_at_most_one {A : Type} (name : string) (c : M A) : Prop :=
  ∀ σ : world,
    params (slot (c σ).2) = params (slot σ) ∧
    (reported (slot (c σ).2) = reported (slot σ) ∨
     ∃ v : ndval, reported (slot (c σ).2) = (name, v) :: reported (slot σ)).

(** The classes of [module.py] whose methods are modelled in full (all but
    [reshape]), [drop] with its configuration and draw. *)
Definition module_classes (keep_prob : R) (mask : ndarray) : list net.pyclass :=
  [net.Module; net.sigmoid; net.linear; net.relu; net.softmax;
   net.add_biases; net.matmul; net.drop keep_prob mask; net.l2; net.crossent].

(** The classes of [module.py] that hold no parameters. *)
Definition stateless_classes (keep_prob : R) (mask : ndarray) : list net.pyclass :=
  [net.Module; net.sigmoid; net.linear; net.relu; net.softmax;
   net.drop keep_prob mask; net.l2; net.crossent].

(** The loss classes of [losses.py]. *)
Definition loss_classes : list losses.lossclass :=
  [losses.softmax_crossent; losses.crossent; losses.l2].

(** The logistic function and the derivative [sigmoid.backward] uses. *)
Definition sigmoid_fn (v : R) : R := (1 / (1 + exp (- v)))%R.
Definition sigmoid_deriv (v : R) : R := (sigmoid_fn v * (1 - sigmoid_fn v))%R.

(** What [softmax.backward] makes of one row of the gradient and the
    matching row of the activation. *)
Definition softmax_backward_row (g a : list R) : list R :=
  zip_with Rmult (map (λ v, v - Rsum (zip_with Rmult g a))%R g) a.

(** An add_biases instance on a Slot holding a bias of ones, with [x23] on
    the heap at [0]. *)
Definition bias_world : world :=
  mkworld {[0%nat := x23]} {["_slot" := VSlot]}
          (mkslot {["b" := mkarr 1 3 [[1; 1; 1]]%R]} []).

(** A gradient whose column count does not fit [w34]. *)
Definition g22 : ndarray := mkarr 2 2 [[1; 1]; [1; 1]]%R.

(** A matmul or add_biases instance on a Slot without parameters. *)
Definition bare_world : world :=
  mkworld {[0%nat := x23]} {["_slot" := VSlot]} empty_slot.

(** A drop instance with keep-probability [kp], with [x23] and [g23] on
    the heap. *)
Definition drop_world (kp : R) (mask : ndarray) : world :=
  new_module (net.drop kp mask) {[0%nat := x23; 1%nat := g23]} empty_slot.

(** The loss of [crossent] as a formula: the mean over the batch of the row
    sums of [-t ⊙ ln x]. *)
Definition crossent_loss (x t : ndarray) : R :=
  np_mean (zip_with
             (λ xr tr, Rsum (zip_with (λ xv tv, - tv * ln xv)%R xr tr))
             (data x) (data t)).

(** Arrays with no column, and with no row. *)
Definition no_columns : ndarray := mkarr 2 0 [[]; []].
Definition no_rows : ndarray := mkarr 0 2 [].

(** A prediction of shape [[3, 1]], which does not broadcast against [x23]. *)
Definition x31 : ndarray := mkarr 3 1 [[1]; [2]; [3]]%R.

(** The loss of [l2] as a formula: the mean, over all entries, of
    [(x - t)²]. *)
Definition l2_loss (x t : ndarray) : R :=
  (Rsum (zip_with (λ xr tr, Rsum (zip_with (λ a b, (a - b) ^ 2) xr tr))
                  (data x) (data t))
   / INR (shape0 x * shape1 x))%R.

(** What a caller may write into the target array after [forward]. *)
Definition target_later : ndarray := mkarr 1 2 [[1 / 2; 1 / 2]]%R.

(** ** The class registry of [module.py] *)

(** The class objects the registry holds. *)
Inductive module_class : Type :=
  | Creshape | Csigmoid | Csoftmax | Cdrop | Clinear | Crelu
  | Cadd_biases | Cmatmul | Ccrossent | Cl2.

Definition _module_class_factory : gmap string module_class :=
  list_to_map
    [("reshape", Creshape); ("sigmoid", Csigmoid); ("softmax", Csoftmax);
     ("drop", Cdrop); ("linear", Clinear); ("relu", Crelu);
     ("bias", Cadd_biases); ("dot", Cmatmul); ("crossent", Ccrossent);
     ("l2", Cl2)].

(** The keys of the registry, in no particular order. *)
Definition module_types : gset string := dom _module_class_factory.

(** [module_class_factory name]; [None] is the failed assertion
    [name in _module_class_factory]. *)
Definition module_class_factory (name : string) : option module_class :=
  if decide (name ∈ module_types) then _module_class_factory !! name else None.

(** ** Running computations *)

Section run.
Context {A B : Type}.

Lemma run_bind (c : M A) (k : A → M B) (σ : world) :
  (c ≫= k) σ = match c σ with
               | (inl e, σ') => (inl e, σ')
               | (inr a, σ') => k a σ'
               end.
Proof. reflexivity. Qed.

End run.

(** Unfold the monad and the primitives, leaving the dictionary and heap
    lookups to be rewritten. *)
Ltac mred :=
  cbv beta iota zeta delta
    [mbind M_bind bind mret M_ret ret raise lift getattr setattr load store
     alloc arr_of num_of slot_val slot_accumulate slot_set_grad self_slot
     set_heap set_attrs set_slot res_bind fresh_world];
  cbn [heap attrs slot params reported shape0 shape1 data].

(** Reduce an equation between literal arrays to its entries. *)
Ltac entrywise :=
  repeat match goal with
         | |- ?x = _ =>
             lazymatch type of x with
             | R => fail
             | _ => f_equal
             end
         end.

Lemma fresh_unused (h : gmap loc ndarray) : h !! fresh (dom h) = None.
Proof. apply not_elem_of_dom, is_fresh. Qed.

Lemma fresh_other (h : gmap loc ndarray) (l : loc) (a : ndarray) :
  h !! l = Some a → fresh (dom h) ≠ l.
Proof. intros H E. rewrite <- E, fresh_unused in H. discriminate. Qed.

Lemma lookup_alloc_old (h : gmap loc ndarray) (l : loc) (a b : ndarray) :
  h !! l = Some a → <[fresh (dom h) := b]> h !! l = Some a.
Proof.
  intros H. rewrite lookup_insert_ne; [exact H|]. eapply fresh_other, H.
Qed.

Lemma np_sum_axis_rows (a : ndarray) : np_sum_axis 1 a = inr (map Rsum (data a)).
Proof. reflexivity. Qed.

Lemma np_sum_axis_last (a : ndarray) : np_sum_axis (-1) a = inr (map Rsum (data a)).
Proof. reflexivity. Qed.

(** Run as far as the lookups and array results among the hypotheses
    allow. *)
Ltac mrun :=
  repeat (mred;
          first
            [ rewrite lookup_insert_eq
            | rewrite np_sum_axis_rows
            | rewrite np_sum_axis_last
            | rewrite lookup_insert_ne by discriminate
            | erewrite lookup_alloc_old by eassumption
            | match goal with
              | H : _ !! _ = _ |- _ => rewrite H
              | H : _ = inr _ |- _ => rewrite H
              end ]);
  mred.

(** ** Facts about the array operations *)

Lemma wf_np_map (f : R → R) (a : ndarray) : wf a → wf (np_map f a).
Proof.
  intros [H0 H1]. split; cbn.
  - rewrite length_map. exact H0.
  - apply Forall_forall. intros r Hr. apply list_elem_of_In, in_map_iff in Hr.
    destruct Hr as (r0 & <- & Hr0). rewrite length_map.
    rewrite Forall_forall in H1. apply H1, list_elem_of_In, Hr0.
Qed.

Lemma np_log_positive (a : ndarray) : positive a → np_log a = inr (np_map ln a).
Proof. intros H. unfold np_log. rewrite decide_True by exact H. reflexivity. Qed.

Lemma bdim_same (n : nat) : bdim n n = inr n.
Proof. unfold bdim. rewrite Nat.eqb_refl. reflexivity. Qed.

Lemma bdim_one (n : nat) : bdim n 1 = inr n.
Proof.
  unfold bdim. destruct (n =? 1)%nat eqn:E; [reflexivity|].
  reflexivity.
Qed.

Lemma bzip_same {A B : Type} (d : A) (n : nat) (g : A → A → B) (la lb : list A) :
  bzip d n n g la lb = zip_with g la lb.
Proof. unfold bzip. rewrite Nat.eqb_refl. reflexivity. Qed.

Lemma bzip_one (n : nat) (f : R → R → R) (r : list R) (c : R) :
  length r = n → bzip 0%R n 1 f r [c] = map (λ v, f v c) r.
Proof.
  intros H. unfold bzip. destruct (n =? 1)%nat eqn:E.
  - apply Nat.eqb_eq in E. subst n.
    destruct r as [|v [|w r]]; try discriminate. reflexivity.
  - reflexivity.
Qed.

Lemma zip_with_map_diag {A B C : Type} (g : A → B → C) (h : A → B) (l : list A) :
  zip_with g l (map h l) = map (λ x, g x (h x)) l.
Proof. induction l as [|x l IH]; cbn; [reflexivity|]. rewrite IH. reflexivity. Qed.

Lemma map_ext_Forall {A B : Type} (P : A → Prop) (f g : A → B) (l : list A) :
  Forall P l → (∀ x, P x → f x = g x) → map f l = map g l.
Proof.
  intros H E. induction H as [|x l Hx Hl IH]; cbn; [reflexivity|].
  rewrite IH, (E x Hx). reflexivity.
Qed.

(** Two operands of one shape are combined entry by entry. *)
Lemma np_bin_same (f : R → R → R) (a b : ndarray) :
  shape0 b = shape0 a → shape1 b = shape1 a →
  np_bin f a b =
    inr (mkarr (shape0 a) (shape1 a) (zip_with (zip_with f) (data a) (data b))).
Proof.
  intros H0 H1. unfold np_bin. rewrite H0, H1, !bdim_same. cbn.
  rewrite bzip_same. do 2 f_equal.
  assert (E : bzip 0%R (shape1 a) (shape1 a) f = zip_with f); [|rewrite E; reflexivity].
  unfold bzip. rewrite Nat.eqb_refl. reflexivity.
Qed.

(** A column of per-row values is broadcast along each row. *)
Lemma np_bin_col (f : R → R → R) (c : list R → R) (a : ndarray) :
  wf a →
  np_bin f a (mkarr (shape0 a) 1 (map (λ r, [c r]) (data a))) =
    inr (mkarr (shape0 a) (shape1 a) (map (λ r, map (λ v, f v (c r)) r) (data a))).
Proof.
  intros [_ Hw]. unfold np_bin. cbn [shape0 shape1 data].
  rewrite bdim_same, bdim_one. cbn.
  rewrite bzip_same, zip_with_map_diag. do 2 f_equal.
  apply (map_ext_Forall _ _ _ _ Hw). intros r Hr. apply bzip_one, Hr.
Qed.

Lemma np_max1_keep_ok (a : ndarray) :
  (0 < shape1 a)%nat →
  np_max1_keep a = inr (mkarr (shape0 a) 1 (map (λ r, [row_max r]) (data a))).
Proof.
  intros H. unfold np_max1_keep. destruct (shape1 a =? 0)%nat eqn:E; [|reflexivity].
  apply Nat.eqb_eq in E. lia.
Qed.

Lemma wf_rowmap (F : list R → list R) (a : ndarray) :
  wf a → (∀ r, length (F r) = length r) →
  wf (mkarr (shape0 a) (shape1 a) (map F (data a))).
Proof.
  intros [H0 H1] HF. split; cbn.
  - rewrite length_map. exact H0.
  - clear H0. induction H1 as [|r l Hr Hl IH]; cbn; constructor; [|exact IH].
    rewrite HF. exact Hr.
Qed.

(** ** Sums, maxima and exponentials *)

Local Open Scope R_scope.

Lemma Rsum_map_div (s : R) (l : list R) :
  Rsum (map (λ v, v / s) l) = Rsum l / s.
Proof.
  induction l as [|v l IH]; cbn.
  - unfold Rdiv. rewrite Rmult_0_l. reflexivity.
  - unfold Rsum in IH. rewrite IH. unfold Rdiv. ring.
Qed.

Lemma Rsum_exp_pos (l : list R) : l ≠ [] → 0 < Rsum (map exp l).
Proof.
  intros Hl. destruct l as [|v l]; [congruence|]. clear Hl. cbn.
  assert (H : 0 <= Rsum (map exp l)).
  { induction l as [|w l IH]; cbn; [lra|]. pose proof (exp_pos w).
    unfold Rsum in IH. lra. }
  pose proof (exp_pos v). unfold Rsum in H. lra.
Qed.

Lemma Rmax_plus_r (a b c : R) : Rmax (a + c) (b + c) = Rmax a b + c.
Proof.
  unfold Rmax. destruct (Rle_dec (a + c) (b + c)), (Rle_dec a b); lra.
Qed.

Lemma row_max_shift (c : R) (r : list R) :
  r ≠ [] → row_max (map (λ v, v + c) r) = row_max r + c.
Proof.
  intros Hr. destruct r as [|v r]; [congruence|]. clear Hr. cbn.
  induction r as [|w r IH]; cbn; [reflexivity|].
  rewrite IH. apply Rmax_plus_r.
Qed.

Lemma softmax_row_sum (r : list R) : r ≠ [] → Rsum (softmax_row r) = 1.
Proof.
  intros Hr. unfold softmax_row. cbv zeta. rewrite Rsum_map_div.
  assert (H : 0 < Rsum (map exp (map (λ v, v - row_max r) r))).
  { apply Rsum_exp_pos. destruct r; [congruence|discriminate]. }
  field. lra.
Qed.

Lemma softmax_row_shift (c : R) (r : list R) :
  softmax_row (map (λ v, v + c) r) = softmax_row r.
Proof.
  destruct r as [|v0 r0]; [reflexivity|].
  set (r := v0 :: r0). assert (Hr : r ≠ []) by discriminate.
  unfold softmax_row. cbv zeta. rewrite (row_max_shift c r Hr).
  assert (E : map (λ v, v - (row_max r + c)) (map (λ v, v + c) r)
              = map (λ v, v - row_max r) r).
  { rewrite map_map. apply map_ext. intros v. ring. }
  rewrite E. reflexivity.
Qed.

(** ** softmax *)

Lemma softmax_forward_run (x : loc) (xv : ndarray) (σ : world) :
  heap σ !! x = Some xv → wf xv → (0 < shape1 xv)%nat →
  net.c_forward net.softmax x σ =
    (inr (VArr (fresh (dom (heap σ)))),
     mkworld (<[fresh (dom (heap σ)) :=
                  mkarr (shape0 xv) (shape1 xv) (map softmax_row (data xv))]> (heap σ))
             (<["activation" := VArr (fresh (dom (heap σ)))]> (attrs σ))
             (slot σ)).
Proof.
  intros H Hw Hk.
  cbv [net.c_forward net.softmax net.Activate_forward net.softmax_transform].
  mred. rewrite H, (np_max1_keep_ok _ Hk).
  rewrite (np_bin_col Rminus row_max xv Hw).
  set (d := mkarr (shape0 xv) (shape1 xv) (map (λ r, map (λ v, v - row_max r) r) (data xv))).
  assert (Hd : wf d).
  { apply (wf_rowmap (λ r, map (λ v, v - row_max r) r) xv Hw).
    intros r. apply length_map. }
  fold d. unfold np_sum1_keep.
  rewrite (np_bin_col Rdiv Rsum (np_map exp d) (wf_np_map exp d Hd)).
  mred. rewrite lookup_insert_eq. cbn [np_map shape0 shape1 data d].
  rewrite !map_map. reflexivity.
Qed.

Lemma map_alter_absorb {A B : Type} (f : A → B) (g : A → A) (i : nat) (l : list A) :
  (∀ x, f (g x) = f x) → map f (alter g i l) = map f l.
Proof.
  intros E. revert i. induction l as [|x l IH]; intros [|i]; cbn;
    rewrite ?E, ?IH; reflexivity.
Qed.

Lemma wf_add_to_row (i : nat) (c : R) (x : ndarray) : wf x → wf (add_to_row i c x).
Proof.
  intros [H0 H1]. split; cbn.
  - rewrite length_alter. exact H0.
  - clear H0. revert i. induction H1 as [|r l Hr Hl IH]; intros [|i]; cbn;
      constructor; rewrite ?length_map; auto.
Qed.

Lemma wf_rows_nonempty (a : ndarray) :
  wf a → (0 < shape1 a)%nat → Forall (λ r, r ≠ []) (data a).
Proof.
  intros [_ H] Hk. eapply Forall_impl; [exact H|]. cbn.
  intros r Hr ->. cbn in Hr. lia.
Qed.

Lemma row_max_is_max (r : list R) :
  r ≠ [] → row_max r ∈ r ∧ Forall (λ v, v <= row_max r) r.
Proof.
  destruct r as [|v r]; [congruence|]. intros _. cbn.
  induction r as [|w r [IHin IHle]]; cbn.
  - split; [left|]. constructor; [lra|constructor].
  - apply Forall_cons in IHle as [Hv Hr].
    set (m := foldr Rmax v r) in *.
    pose proof (Rmax_l w m) as Hl. pose proof (Rmax_r w m) as Hm.
    split.
    + unfold Rmax. destruct (Rle_dec w m).
      * apply elem_of_cons in IHin as [E|Hin]; [rewrite E; left|].
        right. right. exact Hin.
      * right. left.
    + constructor; [lra|]. constructor; [lra|].
      eapply Forall_impl; [exact Hr|]. cbn. intros u Hu. lra.
Qed.

Lemma softmax_row_formula (r : list R) :
  softmax_row r
  = map (λ v, exp (v - row_max r) / Rsum (map (λ u, exp (u - row_max r)) r)) r.
Proof. unfold softmax_row. cbv zeta. rewrite !map_map. reflexivity. Qed.

(** C7 as stated fails: in float64, [softmax.transform] turns a row of six
    equal logits into six times the quotient [1/6], whatever the C
    library's [exp] is beyond [exp(0) = 1], and these six numbers add up
    to the float64 number just below 1 (0.9999999999999999). *)
Lemma softmax_float64_row_sum_is_below_one :
  (∀ np_exp : float → float, np_exp 0%float = 1%float →
     f64.transform np_exp [six_zeros] = Some [replicate 6 one_sixth]) ∧
  f64.row_sum (replicate 6 one_sixth) = 0x1.fffffffffffffp-1%float ∧
  PrimFloat.ltb (f64.row_sum (replicate 6 one_sixth)) 1 = true ∧
  f64.row_sum (replicate 6 one_sixth) ≠ 1%float.
Proof.
  assert (Hlt : PrimFloat.ltb (f64.row_sum (replicate 6 one_sixth)) 1 = true)
    by (vm_compute; reflexivity).
  split; [|split; [vm_compute; reflexivity|split; [exact Hlt|]]].
  - intros np_exp H0. unfold f64.transform, six_zeros. cbn.
    change (PrimFloat.sub 0 _) with 0%float. rewrite H0. reflexivity.
  - intros E. rewrite E in Hlt. vm_compute in Hlt. discriminate.
Qed.

(** C7, amended: on an input with at least one column, [softmax.forward]
    returns an array of the input's shape whose entries are
    [exp(v − m) / Σ exp(u − m)], [m] being the largest entry of the row;
    in exact arithmetic every row of it sums to one, and adding a constant
    to every entry of a row of the input leaves the returned array
    unchanged. *)
Theorem softmax_rows_sum_to_one_and_shift_invariant
    (σ : world) (x : loc) (xv : ndarray) :
  heap σ !! x = Some xv → wf xv → (0 < shape1 xv)%nat →
  ∃ (l : loc) (σ' : world) (a : ndarray),
    net.c_forward net.softmax x σ = (inr (VArr l), σ') ∧
    heap σ' !! l = Some a ∧
    wf a ∧ shape0 a = shape0 xv ∧ shape1 a = shape1 xv ∧
    Forall (λ r, row_max r ∈ r ∧ Forall (λ v, v <= row_max r) r) (data xv) ∧
    data a = map (λ r, map (λ v, exp (v - row_max r)
                                 / Rsum (map (λ u, exp (u - row_max r)) r)) r)
                 (data xv) ∧
    Forall (λ r, Rsum r = 1) (data a) ∧
    ∀ (i : nat) (c : R) (τ : world) (x' : loc),
      heap τ !! x' = Some (add_to_row i c xv) →
      ∃ (l' : loc) (τ' : world),
        net.c_forward net.softmax x' τ = (inr (VArr l'), τ') ∧
        heap τ' !! l' = Some a.
Proof.
  intros H Hw Hk. do 3 eexists. split; [exact (softmax_forward_run x xv σ H Hw Hk)|].
  pose proof (wf_rows_nonempty xv Hw Hk) as Hne.
  cbn [heap]. split; [apply lookup_insert_eq|].
  split; [|split; [reflexivity|split; [reflexivity|]]].
  { apply (wf_rowmap softmax_row xv Hw). intros r. unfold softmax_row.
    cbv zeta. rewrite !length_map. reflexivity. }
  split; [|split; [|split]].
  - eapply Forall_impl; [exact Hne|]. cbn. intros r Hr. apply row_max_is_max, Hr.
  - cbn [data]. apply map_ext. intros r. apply softmax_row_formula.
  - cbn [data]. apply Forall_map. eapply Forall_impl; [exact Hne|].
    cbn. intros r Hr. apply softmax_row_sum, Hr.
  - intros i c τ x' H'. do 2 eexists.
    split; [exact (softmax_forward_run x' _ τ H' (wf_add_to_row i c xv Hw) Hk)|].
    cbn [heap add_to_row shape0 shape1 data]. rewrite lookup_insert_eq.
    do 2 f_equal. apply map_alter_absorb. intros r. apply softmax_row_shift.
Qed.

Lemma softmax_rows_sum_to_one_and_shift_invariant_witness :
  ∃ (l : loc) (σ' : world) (a : ndarray),
    net.c_forward net.softmax 0%nat (fresh_world {[0%nat := logits12]} empty_slot)
      = (inr (VArr l), σ') ∧
    heap σ' !! l = Some a ∧
    wf a ∧ shape0 a = 1%nat ∧ shape1 a = 2%nat ∧
    Forall (λ r, row_max r ∈ r ∧ Forall (λ v, v <= row_max r) r) (data logits12) ∧
    data a = map (λ r, map (λ v, exp (v - row_max r)
                                 / Rsum (map (λ u, exp (u - row_max r)) r)) r)
                 (data logits12) ∧
    Forall (λ r, Rsum r = 1) (data a) ∧
    ∀ (i : nat) (c : R) (τ : world) (x' : loc),
      heap τ !! x' = Some (add_to_row i c logits12) →
      ∃ (l' : loc) (τ' : world),
        net.c_forward net.softmax x' τ = (inr (VArr l'), τ') ∧
        heap τ' !! l' = Some a.
Proof.
  apply (softmax_rows_sum_to_one_and_shift_invariant
           (fresh_world {[0%nat := logits12]} empty_slot) 0%nat logits12).
  - reflexivity.
  - split; [reflexivity|]. repeat constructor.
  - cbn. lia.
Defined.

(** ** matmul *)

Lemma np_dot_ok (a b : ndarray) :
  shape1 a = shape0 b →
  np_dot a b =
    inr (mkarr (shape0 a) (shape1 b)
           (map (λ r, map (λ j, dot_product r (column j (data b)))
                          (seq 0 (shape1 b)))
                (data a))).
Proof. intros H. unfold np_dot. rewrite H, Nat.eqb_refl. reflexivity. Qed.

Lemma matmul_forward_run (x : loc) (xv w y : ndarray) (σ : world) :
  attrs σ !! "_slot" = Some VSlot →
  heap σ !! x = Some xv →
  params (slot σ) !! "w" = Some w →
  np_dot xv w = inr y →
  net.matmul_forward x σ =
    (inr (VArr (fresh (dom (heap σ)))),
     mkworld (<[fresh (dom (heap σ)) := y]> (heap σ))
             (<["_x" := VArr x]> (attrs σ))
             (slot σ)).
Proof.
  intros Hs Hx Hw Hy. unfold net.matmul_forward. mrun. reflexivity.
Qed.

Lemma nth_map_seq {A : Type} (f : nat → A) (s n i : nat) (d : A) :
  (i < n)%nat → nth i (map f (seq s n)) d = f (s + i)%nat.
Proof.
  revert s i. induction n as [|n IH]; intros s [|i] Hi; cbn; try lia.
  - f_equal. lia.
  - rewrite IH by lia. f_equal. lia.
Qed.

(** [matmul] defines [forward] only and inherits [backward] from [Module],
    whose body is [pass]. *)
Lemma matmul_backward_pass (grad : loc) (σ : world) :
  net.c_backward net.matmul grad σ = (inr VNone, σ).
Proof. reflexivity. Qed.

(** C1, evaluated at the input [[1,2,3],[4,5,6]], the weights [w34] of
    shape [[3, 4]] and the all-ones gradient of shape [[2, 4]]:
    [matmul.forward] caches [x] and returns [x·w], and [matmul.backward]
    then returns [None] and reports nothing to the Slot, where the claim
    has [xᵗ·ones] reported under [w] and [ones·wᵗ] returned. *)
Theorem matmul_backward_reports_no_gradient :
  ∃ (y : loc) (σ1 : world),
    net.c_forward net.matmul 0%nat (matmul_world x23 w34 (ones 2 4))
      = (inr (VArr y), σ1) ∧
    attrs σ1 !! "_x" = Some (VArr 0%nat) ∧
    heap σ1 !! 1%nat = Some (ones 2 4) ∧
    net.c_backward net.matmul 1%nat σ1 = (inr VNone, σ1) ∧
    reported (slot σ1) = [] ∧
    np_dot (np_transpose x23) (ones 2 4)
      = inr (mkarr 3 4 [[5; 5; 5; 5]; [7; 7; 7; 7]; [9; 9; 9; 9]]) ∧
    np_dot (ones 2 4) (np_transpose w34)
      = inr (mkarr 2 3 [[3; 3; 5]; [3; 3; 5]]).
Proof.
  eexists _, _. split.
  { apply (matmul_forward_run 0%nat x23 w34); reflexivity. }
  cbn [attrs heap slot reported matmul_world].
  split; [apply lookup_insert_eq|]. split.
  { apply lookup_alloc_old. reflexivity. }
  split; [reflexivity|]. split; [reflexivity|]. split.
  - cbn. unfold dot_product. cbn. entrywise; ring.
  - cbn. unfold dot_product. cbn. entrywise; ring.
Qed.

(** ** add_biases *)

Lemma add_biases_backward_run (grad : loc) (gv : ndarray) (σ : world) :
  attrs σ !! "_slot" = Some VSlot →
  heap σ !! grad = Some gv →
  net.c_backward net.add_biases grad σ =
    (inr (VArr grad),
     mkworld (heap σ) (attrs σ)
             (mkslot (params (slot σ))
                     (("b", N1 (map Rsum (data gv))) :: reported (slot σ)))).
Proof.
  intros Hs Hg. cbv [net.c_backward net.add_biases net.add_biases_backward].
  mrun. reflexivity.
Qed.

(** C2, evaluated at the gradient [[1,2,3],[4,5,6]]: [add_biases.backward]
    returns the gradient it was given, and the value it reports for [b] is
    the sum over the last axis, [6, 15], one entry per batch row; the sum
    over axis 0 is [5, 7, 9], one entry per feature. *)
Theorem add_biases_backward_reports_row_sums :
  ∃ σ' : world,
    net.c_backward net.add_biases 0%nat
      (new_module net.add_biases {[0%nat := g23]} empty_slot)
      = (inr (VArr 0%nat), σ') ∧
    heap σ' !! 0%nat = Some g23 ∧
    reported (slot σ') = [("b", N1 [6; 15])] ∧
    np_sum_axis 0 g23 = inr [5; 7; 9] ∧
    N1 [6; 15] ≠ N1 [5; 7; 9].
Proof.
  eexists. split.
  { apply (add_biases_backward_run 0%nat g23); reflexivity. }
  cbn [heap slot reported]. split; [reflexivity|]. split; [|split].
  - cbn. entrywise; ring.
  - cbn. entrywise; ring.
  - discriminate.
Qed.

(** ** relu *)

Lemma relu_forward_run (x : loc) (xv : ndarray) (σ : world) :
  heap σ !! x = Some xv →
  net.c_forward net.relu x σ =
    (inr (VArr (fresh (dom (heap σ)))),
     mkworld (<[fresh (dom (heap σ)) := np_map (Rmax 0) xv]> (heap σ))
             (<["activation" := VArr (fresh (dom (heap σ)))]> (attrs σ))
             (slot σ)).
Proof.
  intros H. cbv [net.c_forward net.relu net.Activate_forward net.relu_transform].
  mrun. reflexivity.
Qed.

(** [relu] inherits [backward] from [Module], whose body is [pass]. *)
Lemma relu_backward_pass (grad : loc) (σ : world) :
  net.c_backward net.relu grad σ = (inr VNone, σ).
Proof. reflexivity. Qed.

(** C6, evaluated at input [[1, -1]] and gradient [[1, 1]]: [relu.forward]
    returns [max(0, x)] = [[1, 0]] and caches it as the activation, and
    [relu.backward] then returns [None], not the masked gradient [[1, 0]];
    the method holding the mask, [partial], raises [NameError] on [grad]. *)
Theorem relu_backward_returns_none :
  ∃ (l : loc) (σ1 : world),
    net.c_forward net.relu 0%nat
      (new_module net.relu {[0%nat := x_relu; 1%nat := g_relu]} empty_slot)
      = (inr (VArr l), σ1) ∧
    attrs σ1 !! "activation" = Some (VArr l) ∧
    heap σ1 !! l = Some (mkarr 1 2 [[1; 0]]) ∧
    net.c_backward net.relu 1%nat σ1 = (inr VNone, σ1) ∧
    net.relu_partial σ1 = (inl (NameError "grad"), σ1).
Proof.
  eexists _, _. split.
  { apply (relu_forward_run 0%nat x_relu). reflexivity. }
  cbn [attrs heap]. split; [apply lookup_insert_eq|]. split; [|split].
  - rewrite lookup_insert_eq. unfold np_map, x_relu. cbn. entrywise.
    + apply Rmax_right. lra.
    + apply Rmax_left. lra.
  - reflexivity.
  - unfold net.relu_partial. mrun. reflexivity.
Qed.

(** ** l2 *)

Lemma l2_forward_run (x t : loc) (xv tv : ndarray) (σ : world) :
  heap σ !! x = Some xv → heap σ !! t = Some tv →
  shape0 tv = shape0 xv → shape1 tv = shape1 xv →
  let d := mkarr (shape0 xv) (shape1 xv)
                 (zip_with (zip_with Rminus) (data xv) (data tv)) in
  losses.forward losses.l2 x t σ =
    (inr (VFloat (np_mean_all (np_map (λ v, v ^ 2) d))),
     mkworld (<[fresh (dom (heap σ)) := d]> (heap σ))
             (<["_diff" := VArr (fresh (dom (heap σ)))]>
                (<["_t" := VArr t]> (attrs σ)))
             (slot σ)).
Proof.
  intros Hx Ht E0 E1 d.
  pose proof (np_bin_same Rminus xv tv E0 E1) as Hd.
  cbv [losses.forward losses.l2 losses.l_cal_loss losses.l2_cal_loss].
  mrun. reflexivity.
Qed.

Lemma l2_backward_run (g : R) (dl : loc) (d : ndarray) (σ : world) :
  attrs σ !! "_diff" = Some (VArr dl) → heap σ !! dl = Some d →
  losses.backward losses.l2 g σ =
    (inr (VPair (VArr (fresh (dom (heap σ)))) VNone),
     mkworld (<[fresh (dom (heap σ)) := np_map (Rmult g) d]> (heap σ))
             (attrs σ) (slot σ)).
Proof.
  intros Ha Hd.
  cbv [losses.backward losses.l2 losses.l_cal_grad losses.l2_cal_grad].
  mrun. reflexivity.
Qed.

(** C5, evaluated at prediction [[3]], target [[1]] and incoming gradient 1:
    [l2.forward] returns the mean of [(x - t)²], here 4, and
    [l2.backward] returns [grad * diff] = [[2]] from the difference cached
    by [forward], whatever the prediction array holds by then; the factor 2
    of [2·(x − t)·g] = [[4]] is absent. *)
Theorem l2_backward_omits_factor_two :
  ∃ (σ1 : world),
    losses.forward losses.l2 0%nat 1%nat (new_loss {[0%nat := x_l2; 1%nat := t_l2]})
      = (inr (VFloat 4), σ1) ∧
    (∀ x' : ndarray, ∃ (l : loc) (σ2 : world),
       losses.backward losses.l2 1 (set_heap (<[0%nat := x']> (heap σ1)) σ1)
         = (inr (VPair (VArr l) VNone), σ2) ∧
       heap σ2 !! l = Some (mkarr 1 1 [[2]])) ∧
    mkarr 1 1 [[2]] ≠ mkarr 1 1 [[2 * (3 - 1) * 1]].
Proof.
  eexists. split; [|split].
  - rewrite (l2_forward_run 0%nat 1%nat x_l2 t_l2) by reflexivity.
    f_equal. f_equal. f_equal. unfold np_mean_all. cbn. field.
  - intros x'. eexists _, _. split.
    + eapply l2_backward_run; cbn [attrs heap set_heap].
      * apply lookup_insert_eq.
      * rewrite lookup_insert_ne; [apply lookup_insert_eq|].
        intros E. symmetry in E. revert E. apply fresh_other with x_l2. reflexivity.
    + cbn [heap]. rewrite lookup_insert_eq. unfold np_map. cbn. entrywise. ring.
  - intros H. injection H as H. lra.
Qed.

(** ** Attributes a computation leaves alone *)

Section keeps.
Context (name : string).

Lemma keeps_ret {A : Type} (a : A) : keeps_attr name (mret a).
Proof. intros σ. reflexivity. Qed.

Lemma keeps_raise {A : Type} (e : exn) : keeps_attr name (@raise A e).
Proof. intros σ. reflexivity. Qed.

Lemma keeps_lift {A : Type} (r : res A) : keeps_attr name (lift r).
Proof. intros σ. reflexivity. Qed.

Lemma keeps_bind {A B : Type} (c : M A) (k : A → M B) :
  keeps_attr name c → (∀ a, keeps_attr name (k a)) → keeps_attr name (c ≫= k).
Proof.
  intros Hc Hk σ. rewrite run_bind. specialize (Hc σ).
  destruct (c σ) as [[e|a] σ']; cbn in *; [exact Hc|].
  rewrite Hk. exact Hc.
Qed.

Lemma keeps_getattr (n : string) : keeps_attr name (getattr n).
Proof. intros σ. unfold getattr. destruct (attrs σ !! n); reflexivity. Qed.

Lemma keeps_setattr (n : string) (v : pyval) :
  n ≠ name → keeps_attr name (setattr n v).
Proof. intros Hn σ. cbn. apply lookup_insert_ne, Hn. Qed.

Lemma keeps_load (l : loc) : keeps_attr name (load l).
Proof. intros σ. unfold load. destruct (heap σ !! l); reflexivity. Qed.

Lemma keeps_alloc (a : ndarray) : keeps_attr name (alloc a).
Proof. intros σ. reflexivity. Qed.

Lemma keeps_arr_of (v : pyval) : keeps_attr name (arr_of v).
Proof. destruct v; try apply keeps_raise. apply keeps_load. Qed.

Lemma keeps_num_of (v : pyval) : keeps_attr name (num_of v).
Proof. destruct v; try apply keeps_raise. apply keeps_ret. Qed.

Lemma keeps_py_div (a b : R) : keeps_attr name (py_div a b).
Proof. unfold py_div. destruct (Req_dec_T b 0); [apply keeps_raise|apply keeps_ret]. Qed.

End keeps.

Create HintDb keeps discriminated.
#[local] Hint Resolve keeps_ret keeps_raise keeps_lift keeps_getattr keeps_load
  keeps_alloc keeps_arr_of keeps_num_of keeps_py_div : keeps.

Ltac keeps :=
  repeat first
    [ apply keeps_bind; [|intros ?]
    | apply keeps_setattr; discriminate
    | solve [auto with keeps] ].

(** ** crossent *)

Lemma crossent_forward_keeps_batch (x t : loc) :
  keeps_attr "_batch" (losses.forward losses.crossent x t).
Proof.
  cbv [losses.forward losses.crossent losses.l_cal_loss losses.crossent_cal_loss].
  keeps.
Qed.

Lemma crossent_backward_keeps_batch (g : R) :
  keeps_attr "_batch" (losses.backward losses.crossent g).
Proof.
  cbv [losses.backward losses.crossent losses.l_cal_grad losses.crossent_cal_grad].
  keeps.
Qed.

Lemma crossent_reachable_no_batch (σ : world) :
  crossent_reachable σ → attrs σ !! "_batch" = None.
Proof.
  induction 1 as [h|σ x t _ IH|σ g _ IH|σ h _ IH].
  - reflexivity.
  - rewrite crossent_forward_keeps_batch. exact IH.
  - rewrite crossent_backward_keeps_batch. exact IH.
  - exact IH.
Qed.

(** Without [_batch], the gradient computation never gets past reading it. *)
Lemma crossent_cal_grad_raises (g : R) (σ : world) :
  attrs σ !! "_batch" = None →
  ∃ e : exn, (losses.crossent_cal_grad g σ).1 = inl e.
Proof.
  intros Hb. unfold losses.crossent_cal_grad.
  repeat (mred;
          first
            [ rewrite Hb
            | match goal with
              | |- context [match ?X with _ => _ end] =>
                  lazymatch X with
                  | context [match _ with _ => _ end] => fail
                  | _ => destruct X eqn:?
                  end
              end ]);
    cbn; eauto.
Qed.

Lemma crossent_forward_run (x t : loc) (xv tv : ndarray) (σ : world) :
  heap σ !! x = Some xv → heap σ !! t = Some tv →
  shape0 xv = shape0 tv → shape1 xv = shape1 tv → positive xv →
  losses.forward losses.crossent x t σ =
    (inr (VFloat (np_mean (map Rsum (map (map Ropp)
            (zip_with (zip_with Rmult) (data tv) (map (map ln) (data xv))))))),
     mkworld (heap σ)
             (<["_x" := VArr x]> (<["_t" := VArr t]> (attrs σ)))
             (slot σ)).
Proof.
  intros Hx Ht E0 E1 Hp.
  pose proof (np_log_positive xv Hp) as Hl.
  pose proof (np_bin_same Rmult tv (np_map ln xv) E0 E1) as Hc.
  cbv [losses.forward losses.crossent losses.l_cal_loss losses.crossent_cal_loss].
  mrun. reflexivity.
Qed.

Lemma crossent_backward_run (g : R) (x t : loc) (xv tv : ndarray) (σ : world) :
  attrs σ !! "_batch" = None →
  attrs σ !! "_t" = Some (VArr t) → attrs σ !! "_x" = Some (VArr x) →
  heap σ !! x = Some xv → heap σ !! t = Some tv →
  shape0 xv = shape0 tv → shape1 xv = shape1 tv →
  losses.backward losses.crossent g σ = (inl (AttributeError "_batch"), σ).
Proof.
  intros Hb Hat Hax Hx Ht E0 E1.
  pose proof (np_bin_same Rdiv tv (np_map (λ v, v + losses.eps) xv) E0 E1) as Hd.
  cbv [losses.backward losses.crossent losses.l_cal_grad losses.crossent_cal_grad].
  mrun. reflexivity.
Qed.

(** C10: in every state a [crossent] instance of [losses.py] can reach,
    [_batch] is unassigned, so [backward] raises instead of returning a
    gradient; once [forward] has stored a prediction and a target of one
    shape, what it raises is the [AttributeError] for [_batch]. *)
Theorem crossent_backward_cannot_produce_gradient (σ : world) :
  crossent_reachable σ →
  attrs σ !! "_batch" = None ∧
  (∀ g : R, ∃ e : exn, (losses.backward losses.crossent g σ).1 = inl e) ∧
  (∀ (g : R) (x t : loc) (xv tv : ndarray),
     attrs σ !! "_t" = Some (VArr t) → attrs σ !! "_x" = Some (VArr x) →
     heap σ !! x = Some xv → heap σ !! t = Some tv →
     shape0 xv = shape0 tv → shape1 xv = shape1 tv →
     losses.backward losses.crossent g σ = (inl (AttributeError "_batch"), σ)).
Proof.
  intros Hr. pose proof (crossent_reachable_no_batch σ Hr) as Hb.
  split; [exact Hb|]. split.
  - intros g. destruct (crossent_cal_grad_raises g σ Hb) as [e He].
    exists e. cbv [losses.backward losses.crossent losses.l_cal_grad].
    rewrite run_bind. destruct (losses.crossent_cal_grad g σ) as [[e'|v] σ'];
      cbn in *; [exact He|discriminate].
  - intros g x t xv tv. apply crossent_backward_run, Hb.
Qed.

Lemma crossent_backward_cannot_produce_gradient_witness :
  let σ := (losses.forward losses.crossent 0%nat 1%nat
              (new_loss {[0%nat := x_half; 1%nat := target10]})).2 in
  attrs σ !! "_batch" = None ∧
  (∀ g : R, ∃ e : exn, (losses.backward losses.crossent g σ).1 = inl e) ∧
  (∀ (g : R) (x t : loc) (xv tv : ndarray),
     attrs σ !! "_t" = Some (VArr t) → attrs σ !! "_x" = Some (VArr x) →
     heap σ !! x = Some xv → heap σ !! t = Some tv →
     shape0 xv = shape0 tv → shape1 xv = shape1 tv →
     losses.backward losses.crossent g σ = (inl (AttributeError "_batch"), σ)).
Proof.
  apply crossent_backward_cannot_produce_gradient.
  apply cr_forward, cr_new.
Defined.

(** C4, evaluated at probabilities [[1/2, 1/2]], target [[1, 0]] and
    incoming gradient 1: [crossent.forward] returns the mean over the batch
    of the row sums of [-t ⊙ log x], here [-ln (1/2)], and [crossent.backward]
    raises [AttributeError] on [_batch] instead of returning
    [-t/(x+ε)] scaled by [1/batch_size]. *)
Theorem crossent_backward_raises_on_batch :
  ∃ σ1 : world,
    losses.forward losses.crossent 0%nat 1%nat
      (new_loss {[0%nat := x_half; 1%nat := target10]})
      = (inr (VFloat (- ln (1 / 2))), σ1) ∧
    losses.backward losses.crossent 1 σ1 = (inl (AttributeError "_batch"), σ1).
Proof.
  eexists. split.
  - rewrite (crossent_forward_run 0%nat 1%nat x_half target10);
      [|reflexivity..|repeat constructor; lra].
    do 3 f_equal. unfold np_mean. cbn. field.
  - apply (crossent_backward_run 1 0%nat 1%nat x_half target10); reflexivity.
Qed.

(** ** softmax_crossent *)

Lemma Rsum_exp_shift (m : R) (r : list R) :
  Rsum (map exp (map (λ v, v - m) r)) = exp (- m) * Rsum (map exp r).
Proof.
  induction r as [|v r IH]; cbn.
  - ring.
  - unfold Rsum in IH. rewrite IH. unfold Rminus. rewrite exp_plus. ring.
Qed.

Lemma log_soft_row (m : R) (r : list R) :
  r ≠ [] →
  map (λ v, v - ln (Rsum (map exp (map (λ v, v - m) r)))) (map (λ v, v - m) r)
  = map (λ v, v - logsumexp r) r.
Proof.
  intros Hr. rewrite map_map, Rsum_exp_shift. unfold logsumexp.
  pose proof (Rsum_exp_pos r Hr) as HS. pose proof (exp_pos (- m)) as Hm.
  rewrite ln_mult by assumption. rewrite ln_exp.
  apply map_ext. intros v. ring.
Qed.

Lemma exp_minus_ln (a s : R) : 0 < s → exp (a - ln s) = exp a / s.
Proof.
  intros Hs. unfold Rminus. rewrite exp_plus, exp_Ropp, exp_ln by exact Hs.
  reflexivity.
Qed.

Lemma crossed_row (c : R) (r tr : list R) :
  Rsum (map Ropp (zip_with Rmult tr (map (λ v, v - c) r)))
  = Rsum (zip_with (λ xv tv, - tv * (xv - c)) r tr).
Proof.
  revert tr. induction r as [|v r IH]; intros [|w tr]; cbn; try reflexivity.
  specialize (IH tr). unfold Rsum in IH. rewrite IH. ring.
Qed.

Lemma crossed_rows (X T : list (list R)) :
  Forall (λ r, r ≠ []) X →
  map Rsum (map (map Ropp) (zip_with (zip_with Rmult) T (data (log_soft_rows (mkarr 0 0 X)))))
  = zip_with (λ xr tr, Rsum (zip_with (λ xv tv, - tv * (xv - logsumexp xr)) xr tr)) X T.
Proof.
  intros HX. cbn. rewrite map_map. revert T.
  induction HX as [|r X Hr _ IH]; intros [|tr T]; cbn; try reflexivity.
  rewrite IH. f_equal. rewrite (log_soft_row _ r Hr). apply crossed_row.
Qed.

Lemma grad_rows (s : R) (g : R) (n : R) (X T : list (list R)) :
  Forall (λ r, r ≠ []) X → s = 1 / n * g →
  map (map (Rmult s))
      (zip_with (zip_with Rminus)
                (map (map exp) (data (log_soft_rows (mkarr 0 0 X)))) T)
  = zip_with (λ xr tr,
                zip_with (λ xv tv, g * (exp xv / Rsum (map exp xr) - tv) / n) xr tr)
             X T.
Proof.
  intros HX ->. cbn. rewrite !map_map. revert T.
  induction HX as [|r X Hr _ IH]; intros [|tr T]; cbn; try reflexivity.
  rewrite IH. f_equal. rewrite (log_soft_row _ r Hr). clear IH.
  pose proof (Rsum_exp_pos r Hr) as HS. unfold logsumexp.
  generalize dependent (Rsum (map exp r)). intros S HS. clear Hr.
  revert tr. induction r as [|v r IHr]; intros [|w tr]; cbn; try reflexivity.
  rewrite IHr. f_equal. rewrite (exp_minus_ln v S HS). unfold Rdiv. ring.
Qed.

Lemma wf_shifted_rows (x : ndarray) : wf x → wf (shifted_rows x).
Proof.
  intros Hw. apply (wf_rowmap (λ r, map (λ v, v - row_max r) r) x Hw).
  intros r. apply length_map.
Qed.

Lemma log_sum_exp_column (a : ndarray) :
  np_map ln (np_sum1_keep (np_map exp a))
  = mkarr (shape0 a) 1 (map (λ r, [ln (Rsum (map exp r))]) (data a)).
Proof. unfold np_map, np_sum1_keep. cbn. rewrite !map_map. reflexivity. Qed.

(** The sums of exponentials over non-empty rows are positive. *)
Lemma sum_exp_positive (a : ndarray) :
  Forall (λ r, r ≠ []) (data a) → positive (np_sum1_keep (np_map exp a)).
Proof.
  intros H. unfold positive, np_sum1_keep, np_map. cbn [data].
  rewrite map_map. apply Forall_map. eapply Forall_impl; [exact H|].
  cbn. intros r Hr. constructor; [|constructor].
  apply Rsum_exp_pos. exact Hr.
Qed.

Lemma softmax_crossent_forward_run (x t : loc) (xv tv : ndarray) (σ : world) :
  heap σ !! x = Some xv → heap σ !! t = Some tv → x ≠ t →
  wf xv → shape0 xv = shape0 tv → shape1 xv = shape1 tv → (0 < shape1 xv)%nat →
  let h1 := <[x := shifted_rows xv]> (heap σ) in
  losses.forward losses.softmax_crossent x t σ =
    (inr (VFloat (np_mean (map Rsum (map (map Ropp)
            (zip_with (zip_with Rmult) (data tv) (data (log_soft_rows xv))))))),
     mkworld (<[fresh (dom h1) := log_soft_rows xv]> h1)
             (<["_log_soft" := VArr (fresh (dom h1))]>
                (<["_t" := VArr t]> (attrs σ)))
             (slot σ)).
Proof.
  intros Hx Ht Hne Hw E0 E1 Hk h1.
  assert (Ht1 : h1 !! t = Some tv).
  { unfold h1. rewrite lookup_insert_ne by exact Hne. exact Ht. }
  pose proof (np_max1_keep_ok xv Hk) as Hmax.
  pose proof (np_bin_col Rminus row_max xv Hw) as Hsub. fold (shifted_rows xv) in Hsub.
  pose proof (np_log_positive _
                (sum_exp_positive (shifted_rows xv)
                   (wf_rows_nonempty _ (wf_shifted_rows xv Hw) Hk))) as Hlg.
  pose proof (np_bin_col Rminus (λ r, ln (Rsum (map exp r))) (shifted_rows xv)
                (wf_shifted_rows xv Hw)) as Hls.
  rewrite <- log_sum_exp_column in Hls.
  change (mkarr (shape0 (shifted_rows xv)) (shape1 (shifted_rows xv))
            (map (λ r, map (λ v, v - ln (Rsum (map exp r))) r)
                 (data (shifted_rows xv)))) with (log_soft_rows xv) in Hls.
  pose proof (np_bin_same Rmult tv (log_soft_rows xv) E0 E1) as Hc.
  cbv [losses.forward losses.softmax_crossent losses.l_cal_loss
       losses.softmax_crossent_cal_loss].
  mrun. fold h1. mrun. reflexivity.
Qed.

Lemma softmax_crossent_backward_run
    (g : R) (t l : loc) (tv ls : ndarray) (σ : world) :
  attrs σ !! "_t" = Some (VArr t) → attrs σ !! "_log_soft" = Some (VArr l) →
  heap σ !! t = Some tv → heap σ !! l = Some ls →
  shape0 tv = shape0 ls → shape1 tv = shape1 ls → (0 < shape0 tv)%nat →
  losses.backward losses.softmax_crossent g σ =
    (inr (VPair (VArr (fresh (dom (heap σ)))) VNone),
     mkworld (<[fresh (dom (heap σ)) :=
                  np_map (Rmult (1 / INR (shape0 tv) * g))
                    (mkarr (shape0 ls) (shape1 ls)
                       (zip_with (zip_with Rminus) (map (map exp) (data ls)) (data tv)))]>
                (heap σ))
             (attrs σ) (slot σ)).
Proof.
  intros Hat Hal Ht Hl E0 E1 Hn.
  pose proof (np_bin_same Rminus (np_map exp ls) tv E0 E1) as Hd.
  cbv [losses.backward losses.softmax_crossent losses.l_cal_grad
       losses.softmax_crossent_cal_grad].
  mrun. unfold py_div. destruct (Req_dec_T (INR (shape0 tv)) 0) as [E|_].
  { apply (INR_eq _ 0) in E. lia. }
  mrun. reflexivity.
Qed.

Lemma softmax_crossent_forward_backward
    (σ : world) (x t : loc) (xv tv : ndarray) (g : R) :
  heap σ !! x = Some xv → heap σ !! t = Some tv → x ≠ t →
  wf xv → shape0 xv = shape0 tv → shape1 xv = shape1 tv →
  (0 < shape0 xv)%nat → (0 < shape1 xv)%nat →
  ∃ (σ1 : world) (l : loc) (σ2 : world),
    losses.forward losses.softmax_crossent x t σ
      = (inr (VFloat (softmax_crossent_loss xv tv)), σ1) ∧
    losses.backward losses.softmax_crossent g σ1
      = (inr (VPair (VArr l) VNone), σ2) ∧
    heap σ2 !! l = Some (softmax_crossent_grad g xv tv).
Proof.
  intros Hx Ht Hne Hw E0 E1 Hn Hk.
  pose proof (wf_rows_nonempty xv Hw Hk) as HX.
  eexists _, _, _. split; [|split].
  - rewrite (softmax_crossent_forward_run x t xv tv σ Hx Ht Hne Hw E0 E1 Hk).
    cbv zeta. do 3 f_equal. unfold softmax_crossent_loss. f_equal.
    apply (crossed_rows (data xv) (data tv) HX).
  - eapply (softmax_crossent_backward_run g t _ tv (log_soft_rows xv));
      cbn [attrs heap].
    + rewrite lookup_insert_ne by discriminate. apply lookup_insert_eq.
    + apply lookup_insert_eq.
    + apply lookup_alloc_old. rewrite lookup_insert_ne by exact Hne. exact Ht.
    + apply lookup_insert_eq.
    + cbn. congruence.
    + cbn. congruence.
    + lia.
  - cbn [heap]. rewrite lookup_insert_eq. f_equal.
    unfold softmax_crossent_grad, np_map. cbn [shape0 shape1 data log_soft_rows shifted_rows].
    f_equal. rewrite <- E0.
    apply (grad_rows _ g (INR (shape0 xv)) (data xv) (data tv) HX eq_refl).
Qed.

(** What [forward] leaves on the heap: the logits shifted in place, the
    target as it was. *)
Lemma softmax_crossent_forward_state (σ : world) (x t : loc) (xv tv : ndarray) :
  heap σ !! x = Some xv → heap σ !! t = Some tv → x ≠ t →
  wf xv → shape0 xv = shape0 tv → shape1 xv = shape1 tv → (0 < shape1 xv)%nat →
  heap (losses.forward losses.softmax_crossent x t σ).2 !! x = Some (shifted_rows xv) ∧
  heap (losses.forward losses.softmax_crossent x t σ).2 !! t = Some tv.
Proof.
  intros Hx Ht Hne Hw E0 E1 Hk.
  rewrite (softmax_crossent_forward_run x t xv tv σ Hx Ht Hne Hw E0 E1 Hk).
  cbv zeta. cbn [snd heap]. split; apply lookup_alloc_old.
  - apply lookup_insert_eq.
  - rewrite lookup_insert_ne by exact Hne. exact Ht.
Qed.

(** Logits [[0,0]] with target [[1,0]] and incoming gradient 1. *)
Lemma softmax_crossent_at_logits00 :
  ∃ (σ1 : world) (l : loc) (σ2 : world),
    losses.forward losses.softmax_crossent 0%nat 1%nat
      (new_loss {[0%nat := logits00; 1%nat := target10]})
      = (inr (VFloat (ln 2)), σ1) ∧
    losses.backward losses.softmax_crossent 1 σ1
      = (inr (VPair (VArr l) VNone), σ2) ∧
    heap σ2 !! l = Some (mkarr 1 2 [[- (1 / 2); 1 / 2]]).
Proof.
  destruct (softmax_crossent_forward_backward
              (new_loss {[0%nat := logits00; 1%nat := target10]})
              0%nat 1%nat logits00 target10 1)
    as (σ1 & l & σ2 & Hf & Hb & Hh);
    try reflexivity; try (cbn; lia).
  { split; [reflexivity|]. repeat constructor. }
  exists σ1, l, σ2. split; [|split; [exact Hb|]].
  - rewrite Hf. do 3 f_equal.
    unfold softmax_crossent_loss, np_mean, logsumexp. cbn. rewrite exp_0.
    replace (1 + (1 + 0)) with 2 by ring. field.
  - rewrite Hh. f_equal. unfold softmax_crossent_grad. cbn. rewrite exp_0.
    entrywise; field.
Qed.

(** C3 as stated fails: what [backward] returns is not the gradient array
    but a pair, the gradient array and [None]; so on logits [[0,0]] with
    target [[1,0]] and incoming gradient 1. *)
Lemma softmax_crossent_backward_returns_pair :
  ∃ (σ1 : world) (l : loc) (σ2 : world) (v : pyval),
    losses.forward losses.softmax_crossent 0%nat 1%nat
      (new_loss {[0%nat := logits00; 1%nat := target10]})
      = (inr (VFloat (ln 2)), σ1) ∧
    losses.backward losses.softmax_crossent 1 σ1 = (inr v, σ2) ∧
    v = VPair (VArr l) VNone ∧
    heap σ2 !! l = Some (mkarr 1 2 [[- (1 / 2); 1 / 2]]) ∧
    ∀ l' : loc, v ≠ VArr l'.
Proof.
  destruct softmax_crossent_at_logits00 as (σ1 & l & σ2 & Hf & Hb & Hh).
  exists σ1, l, σ2, (VPair (VArr l) VNone).
  repeat split; try assumption. intros l'. discriminate.
Qed.

(** C3, amended: on logits [x] and a target [t] of one shape
    [[batch, classes]], held in distinct arrays, [softmax_crossent.forward]
    subtracts from each row of [x] its largest entry, in the caller's
    array, and returns the mean over the batch of the row sums of
    [-t ⊙ (x − logsumexp x)]; [backward] then returns, for every incoming
    scalar [g], the pair of the array [g · (softmax x − t) / batch_size]
    and [None].  On logits [[0,0]] with target [[1,0]] the loss is [ln 2]
    and the array for [g = 1] is [[-1/2, 1/2]]. *)
Theorem softmax_crossent_loss_and_gradient :
  (∀ (σ : world) (x t : loc) (xv tv : ndarray) (g : R),
     heap σ !! x = Some xv → heap σ !! t = Some tv → x ≠ t →
     wf xv → shape0 xv = shape0 tv → shape1 xv = shape1 tv →
     (0 < shape0 xv)%nat → (0 < shape1 xv)%nat →
     ∃ (σ1 : world) (l : loc) (σ2 : world),
       losses.forward losses.softmax_crossent x t σ
         = (inr (VFloat (softmax_crossent_loss xv tv)), σ1) ∧
       heap σ1 !! x = Some (shifted_rows xv) ∧
       Forall (λ r, row_max r ∈ r ∧ Forall (λ v, v <= row_max r) r) (data xv) ∧
       heap σ1 !! t = Some tv ∧
       losses.backward losses.softmax_crossent g σ1
         = (inr (VPair (VArr l) VNone), σ2) ∧
       heap σ2 !! l = Some (softmax_crossent_grad g xv tv)) ∧
  (∃ (σ1 : world) (l : loc) (σ2 : world),
     losses.forward losses.softmax_crossent 0%nat 1%nat
       (new_loss {[0%nat := logits00; 1%nat := target10]})
       = (inr (VFloat (ln 2)), σ1) ∧
     losses.backward losses.softmax_crossent 1 σ1
       = (inr (VPair (VArr l) VNone), σ2) ∧
     heap σ2 !! l = Some (mkarr 1 2 [[- (1 / 2); 1 / 2]])).
Proof.
  split; [|exact softmax_crossent_at_logits00].
  intros σ x t xv tv g Hx Ht Hne Hw E0 E1 Hn Hk.
  destruct (softmax_crossent_forward_backward σ x t xv tv g Hx Ht Hne Hw E0 E1 Hn Hk)
    as (σ1 & l & σ2 & Hf & Hb & Hh).
  destruct (softmax_crossent_forward_state σ x t xv tv Hx Ht Hne Hw E0 E1 Hk)
    as [Hsx Hst].
  rewrite Hf in Hsx, Hst. cbn [snd] in Hsx, Hst.
  exists σ1, l, σ2. repeat split; try assumption.
  eapply Forall_impl; [exact (wf_rows_nonempty xv Hw Hk)|].
  cbn. intros r Hr. apply row_max_is_max, Hr.
Qed.

Lemma softmax_crossent_loss_and_gradient_witness :
  ∃ (σ1 : world) (l : loc) (σ2 : world),
    losses.forward losses.softmax_crossent 0%nat 1%nat
      (new_loss {[0%nat := logits12; 1%nat := target01]})
      = (inr (VFloat (softmax_crossent_loss logits12 target01)), σ1) ∧
    heap σ1 !! 0%nat = Some (shifted_rows logits12) ∧
    Forall (λ r, row_max r ∈ r ∧ Forall (λ v, v <= row_max r) r) (data logits12) ∧
    heap σ1 !! 1%nat = Some target01 ∧
    losses.backward losses.softmax_crossent 1 σ1
      = (inr (VPair (VArr l) VNone), σ2) ∧
    heap σ2 !! l = Some (softmax_crossent_grad 1 logits12 target01).
Proof.
  apply (proj1 softmax_crossent_loss_and_gradient
           (new_loss {[0%nat := logits12; 1%nat := target01]})
           0%nat 1%nat logits12 target01 1).
  - reflexivity.
  - reflexivity.
  - lia.
  - split; [reflexivity|]. repeat constructor.
  - reflexivity.
  - reflexivity.
  - cbn. lia.
  - cbn. lia.
Defined.

(** C9, evaluated at logits [[1, 2]] and target [[0, 1]]: after
    [softmax_crossent.forward] has returned the loss, the caller's logits
    array holds [[1 - 2, 2 - 2]], each row shifted by its maximum, and no
    longer the values [[1, 2]] it was passed with. *)
Theorem softmax_crossent_forward_mutates_logits :
  ∃ (v : R) (σ1 : world),
    heap (new_loss {[0%nat := logits12; 1%nat := target01]}) !! 0%nat
      = Some logits12 ∧
    losses.forward losses.softmax_crossent 0%nat 1%nat
      (new_loss {[0%nat := logits12; 1%nat := target01]})
      = (inr (VFloat v), σ1) ∧
    heap σ1 !! 0%nat = Some (mkarr 1 2 [[-1; 0]]) ∧
    heap σ1 !! 0%nat ≠ Some logits12.
Proof.
  eexists _, _. split; [reflexivity|]. split.
  { apply (softmax_crossent_forward_run 0%nat 1%nat logits12 target01);
      try reflexivity; try (cbn; lia).
    split; [reflexivity|]. repeat constructor. }
  cbn [heap].
  assert (E : shifted_rows logits12 = mkarr 1 2 [[-1; 0]]).
  { unfold shifted_rows, logits12. cbn. replace (Rmax 2 1) with 2.
    - entrywise; ring.
    - symmetry. apply Rmax_left. lra. }
  rewrite (lookup_alloc_old _ 0%nat (shifted_rows logits12))
    by apply lookup_insert_eq.
  rewrite E. split; [reflexivity|].
  intros H. injection H as H. lra.
Qed.

(** ** backward on a freshly constructed instance *)

Ltac run_fresh :=
  cbv [new_module new_loss net.Module_init losses.Loss_init
       net.c_setup net.c_backward net.c_forward losses.l_cal_grad losses.backward
       net.Module net.reshape net.matmul net.drop net.sigmoid net.softmax
       net.linear net.add_biases net.relu net.l2 net.crossent
       net.Module_setup net.reshape_setup net.Activate_setup net.drop_setup
       net.Loss_setup
       net.Module_backward net.reshape_backward net.drop_backward
       net.sigmoid_backward net.softmax_backward net.linear_backward
       net.add_biases_backward net.l2_backward net.crossent_backward
       losses.softmax_crossent losses.crossent losses.l2
       losses.softmax_crossent_cal_grad losses.crossent_cal_grad
       losses.l2_cal_grad];
  repeat (mrun; cbn [fst snd]).

(** C8 as stated fails: on a freshly constructed [linear] instance,
    [backward] returns the gradient it is given. *)
Lemma linear_backward_on_fresh_instance_returns :
  (net.c_backward net.linear 0%nat
     (new_module net.linear {[0%nat := g_relu]} empty_slot)).1
  = inr (VArr 0%nat) ∧
  (net.c_backward net.linear 0%nat
     (new_module net.linear {[0%nat := g_relu]} empty_slot)).1
  ≠ inl InvalidSequence.
Proof. split; [reflexivity|discriminate]. Qed.

(** C8, amended: no variant checks the order of calls, and [backward] on a
    freshly constructed instance runs its body on the state the constructor
    left.  The variants whose [backward] reads what [forward] caches fail at
    once: [drop], the [l2] and [crossent] of [module.py] and the three
    losses of [losses.py] with [AttributeError] on the attribute not yet
    assigned, [sigmoid] and [softmax] with [TypeError] on the [None]
    activation.  [linear] and [add_biases] return the incoming gradient.
    [Module], [relu] and [matmul], whose [backward] is the inherited
    [pass], return [None].  [reshape] hands [None], the old shape it has
    not yet seen, to numpy's [reshape], and ends as that call ends. *)
Theorem backward_on_fresh_instance
    (h : gmap loc ndarray) (s : Slot) (grad : loc) (gv : ndarray)
    (keep_prob g : R) (mask : ndarray)
    (np_reshape : loc → pyval → M pyval) (shape : pyval) :
  h !! grad = Some gv →
  (net.c_backward (net.drop keep_prob mask) grad
     (new_module (net.drop keep_prob mask) h s)).1
    = inl (AttributeError "r") ∧
  (net.c_backward net.l2 grad (new_module net.l2 h s)).1
    = inl (AttributeError "_d") ∧
  (net.c_backward net.crossent grad (new_module net.crossent h s)).1
    = inl (AttributeError "_t") ∧
  (losses.backward losses.softmax_crossent g (new_loss h)).1
    = inl (AttributeError "_t") ∧
  (losses.backward losses.crossent g (new_loss h)).1
    = inl (AttributeError "_t") ∧
  (losses.backward losses.l2 g (new_loss h)).1
    = inl (AttributeError "_diff") ∧
  (net.c_backward net.sigmoid grad (new_module net.sigmoid h s)).1
    = inl TypeError ∧
  (net.c_backward net.softmax grad (new_module net.softmax h s)).1
    = inl TypeError ∧
  (net.c_backward net.linear grad (new_module net.linear h s)).1
    = inr (VArr grad) ∧
  (net.c_backward net.add_biases grad (new_module net.add_biases h s)).1
    = inr (VArr grad) ∧
  (net.c_backward net.Module grad (new_module net.Module h s)).1
    = inr VNone ∧
  (net.c_backward net.relu grad (new_module net.relu h s)).1
    = inr VNone ∧
  (net.c_backward net.matmul grad (new_module net.matmul h s)).1
    = inr VNone ∧
  net.c_backward (net.reshape np_reshape shape) grad
    (new_module (net.reshape np_reshape shape) h s)
    = np_reshape grad VNone (new_module (net.reshape np_reshape shape) h s).
Proof.
  intros Hg. repeat split; run_fresh; reflexivity.
Qed.

Lemma backward_on_fresh_instance_witness :
  (net.c_backward (net.drop (1 / 2) (ones 1 2)) 0%nat
     (new_module (net.drop (1 / 2) (ones 1 2)) {[0%nat := g_relu]} empty_slot)).1
    = inl (AttributeError "r") ∧
  (net.c_backward net.l2 0%nat (new_module net.l2 {[0%nat := g_relu]} empty_slot)).1
    = inl (AttributeError "_d") ∧
  (net.c_backward net.crossent 0%nat
     (new_module net.crossent {[0%nat := g_relu]} empty_slot)).1
    = inl (AttributeError "_t") ∧
  (losses.backward losses.softmax_crossent 1 (new_loss {[0%nat := g_relu]})).1
    = inl (AttributeError "_t") ∧
  (losses.backward losses.crossent 1 (new_loss {[0%nat := g_relu]})).1
    = inl (AttributeError "_t") ∧
  (losses.backward losses.l2 1 (new_loss {[0%nat := g_relu]})).1
    = inl (AttributeError "_diff") ∧
  (net.c_backward net.sigmoid 0%nat
     (new_module net.sigmoid {[0%nat := g_relu]} empty_slot)).1
    = inl TypeError ∧
  (net.c_backward net.softmax 0%nat
     (new_module net.softmax {[0%nat := g_relu]} empty_slot)).1
    = inl TypeError ∧
  (net.c_backward net.linear 0%nat
     (new_module net.linear {[0%nat := g_relu]} empty_slot)).1
    = inr (VArr 0%nat) ∧
  (net.c_backward net.add_biases 0%nat
     (new_module net.add_biases {[0%nat := g_relu]} empty_slot)).1
    = inr (VArr 0%nat) ∧
  (net.c_backward net.Module 0%nat
     (new_module net.Module {[0%nat := g_relu]} empty_slot)).1
    = inr VNone ∧
  (net.c_backward net.relu 0%nat
     (new_module net.relu {[0%nat := g_relu]} empty_slot)).1
    = inr VNone ∧
  (net.c_backward net.matmul 0%nat
     (new_module net.matmul {[0%nat := g_relu]} empty_slot)).1
    = inr VNone ∧
  net.c_backward (net.reshape (λ a _, ret (VArr a)) VNone) 0%nat
    (new_module (net.reshape (λ a _, ret (VArr a)) VNone)
       {[0%nat := g_relu]} empty_slot)
    = ret (VArr 0%nat)
        (new_module (net.reshape (λ a _, ret (VArr a)) VNone)
           {[0%nat := g_relu]} empty_slot).
Proof.
  apply (backward_on_fresh_instance {[0%nat := g_relu]} empty_slot 0%nat g_relu
           (1 / 2) 1 (ones 1 2) (λ a _, ret (VArr a)) VNone).
  reflexivity.
Defined.

(** ** Arrays and Slot entries a computation leaves alone *)

Section frames.
Context {A B : Type}.

Lemma arrays_ret (a : A) : keeps_arrays (mret a).
Proof. intros σ l v H. exact H. Qed.

Lemma arrays_raise (e : exn) : keeps_arrays (@raise A e).
Proof. intros σ l v H. exact H. Qed.

Lemma arrays_lift (r : res A) : keeps_arrays (lift r).
Proof. intros σ l v H. exact H. Qed.

Lemma arrays_bind (c : M A) (k : A → M B) :
  keeps_arrays c → (∀ a, keeps_arrays (k a)) → keeps_arrays (c ≫= k).
Proof.
  intros Hc Hk σ l v H. rewrite run_bind. specialize (Hc σ l v H).
  destruct (c σ) as [[e|a] σ']; cbn in *; [exact Hc|]. apply Hk, Hc.
Qed.

Lemma slot_ret (a : A) : keeps_slot (mret a).
Proof. intros σ. reflexivity. Qed.

Lemma slot_raise (e : exn) : keeps_slot (@raise A e).
Proof. intros σ. reflexivity. Qed.

Lemma slot_lift (r : res A) : keeps_slot (lift r).
Proof. intros σ. reflexivity. Qed.

Lemma slot_bind (c : M A) (k : A → M B) :
  keeps_slot c → (∀ a, keeps_slot (k a)) → keeps_slot (c ≫= k).
Proof.
  intros Hc Hk σ. rewrite run_bind. specialize (Hc σ).
  destruct (c σ) as [[e|a] σ']; cbn in *; [exact Hc|]. rewrite Hk. exact Hc.
Qed.

Lemma reports_bind_l (name : string) (c : M A) (k : A → M B) :
  reports_at_most_one name c → (∀ a, keeps_slot (k a)) →
  reports_at_most_one name (c ≫= k).
Proof.
  intros Hc Hk σ. rewrite run_bind. specialize (Hc σ).
  destruct (c σ) as [[e|a] σ']; cbn in *; [exact Hc|].
  rewrite (Hk a σ'). exact Hc.
Qed.

Lemma reports_bind_r (name : string) (c : M A) (k : A → M B) :
  keeps_slot c → (∀ a, reports_at_most_one name (k a)) →
  reports_at_most_one name (c ≫= k).
Proof.
  intros Hc Hk σ. rewrite run_bind. specialize (Hc σ).
  destruct (c σ) as [[e|a] σ']; cbn in *.
  - rewrite Hc. split; [reflexivity|left; reflexivity].
  - rewrite <- Hc. apply Hk.
Qed.

End frames.

Lemma arrays_getattr (n : string) : keeps_arrays (getattr n).
Proof. intros σ l v H. unfold getattr. destruct (attrs σ !! n); exact H. Qed.

Lemma arrays_setattr (n : string) (v : pyval) : keeps_arrays (setattr n v).
Proof. intros σ l a H. exact H. Qed.

Lemma arrays_load (x : loc) : keeps_arrays (load x).
Proof. intros σ l v H. unfold load. destruct (heap σ !! x); exact H. Qed.

Lemma arrays_alloc (a : ndarray) : keeps_arrays (alloc a).
Proof. intros σ l v H. cbn. apply lookup_alloc_old, H. Qed.

Lemma arrays_arr_of (v : pyval) : keeps_arrays (arr_of v).
Proof. destruct v; try apply arrays_raise. apply arrays_load. Qed.

Lemma arrays_num_of (v : pyval) : keeps_arrays (num_of v).
Proof. destruct v; try apply arrays_raise. apply arrays_ret. Qed.

Lemma arrays_py_div (a b : R) : keeps_arrays (py_div a b).
Proof. unfold py_div. destruct (Req_dec_T b 0); [apply arrays_raise|apply arrays_ret]. Qed.

Lemma arrays_slot_val (n : string) : keeps_arrays (slot_val n).
Proof. intros σ l v H. unfold slot_val. destruct (params (slot σ) !! n); exact H. Qed.

Lemma arrays_slot_accumulate (n : string) (v : ndval) :
  keeps_arrays (slot_accumulate n v).
Proof. intros σ l a H. exact H. Qed.

Lemma arrays_slot_set_grad (n : string) (g : M ndval) :
  keeps_arrays g → keeps_arrays (slot_set_grad n g).
Proof. intros Hg. apply arrays_bind; [exact Hg|]. intros v. apply arrays_slot_accumulate. Qed.

Lemma arrays_self_slot : keeps_arrays self_slot.
Proof.
  apply arrays_bind; [apply arrays_getattr|]. intros [];
    try apply arrays_raise. apply arrays_ret.
Qed.

Lemma slot_getattr (n : string) : keeps_slot (getattr n).
Proof. intros σ. unfold getattr. destruct (attrs σ !! n); reflexivity. Qed.

Lemma slot_setattr (n : string) (v : pyval) : keeps_slot (setattr n v).
Proof. intros σ. reflexivity. Qed.

Lemma slot_load (x : loc) : keeps_slot (load x).
Proof. intros σ. unfold load. destruct (heap σ !! x); reflexivity. Qed.

Lemma slot_store (x : loc) (a : ndarray) : keeps_slot (store x a).
Proof. intros σ. reflexivity. Qed.

Lemma slot_alloc (a : ndarray) : keeps_slot (alloc a).
Proof. intros σ. reflexivity. Qed.

Lemma slot_arr_of (v : pyval) : keeps_slot (arr_of v).
Proof. destruct v; try apply slot_raise. apply slot_load. Qed.

Lemma slot_num_of (v : pyval) : keeps_slot (num_of v).
Proof. destruct v; try apply slot_raise. apply slot_ret. Qed.

Lemma slot_py_div (a b : R) : keeps_slot (py_div a b).
Proof. unfold py_div. destruct (Req_dec_T b 0); [apply slot_raise|apply slot_ret]. Qed.

Lemma slot_slot_val (n : string) : keeps_slot (slot_val n).
Proof. intros σ. unfold slot_val. destruct (params (slot σ) !! n); reflexivity. Qed.

Lemma slot_self_slot : keeps_slot self_slot.
Proof.
  apply slot_bind; [apply slot_getattr|]. intros [];
    try apply slot_raise. apply slot_ret.
Qed.

Lemma reports_slot_set_grad (n : string) (g : M ndval) :
  keeps_slot g → reports_at_most_one n (slot_set_grad n g).
Proof.
  intros Hg σ. unfold slot_set_grad. rewrite run_bind. specialize (Hg σ).
  destruct (g σ) as [[e|v] σ']; cbn in *; rewrite Hg.
  - split; [reflexivity|left; reflexivity].
  - split; [reflexivity|right; exists v; reflexivity].
Qed.

Create HintDb frames discriminated.
#[local] Hint Resolve arrays_ret arrays_raise arrays_lift arrays_getattr
  arrays_setattr arrays_load arrays_alloc arrays_arr_of arrays_num_of
  arrays_py_div arrays_slot_val arrays_slot_accumulate arrays_self_slot
  slot_ret slot_raise slot_lift slot_getattr slot_setattr slot_load slot_store
  slot_alloc slot_arr_of slot_num_of slot_py_div slot_slot_val slot_self_slot
  : frames.

Ltac frames :=
  cbv zeta;
  repeat first
    [ solve [auto with frames]
    | apply arrays_slot_set_grad
    | apply arrays_bind; [|intros ?]
    | apply slot_bind; [|intros ?] ].

Ltac unfold_methods :=
  cbv [net.c_setup net.c_forward net.c_backward
       net.Module net.sigmoid net.linear net.relu net.softmax net.add_biases
       net.matmul net.drop net.l2 net.crossent
       net.Module_setup net.Module_forward net.Module_backward
       net.Activate_setup net.Activate_forward net.Loss_setup net.Loss_forward
       net.sigmoid_transform net.sigmoid_backward
       net.linear_transform net.linear_backward net.relu_transform
       net.softmax_transform net.softmax_backward
       net.add_biases_forward net.add_biases_backward
       net.matmul_forward
       net.drop_setup net.drop_forward net.drop_backward
       net.l2_cal_loss net.l2_backward
       net.crossent_cal_loss net.crossent_backward
       losses.forward losses.backward losses.l_cal_loss losses.l_cal_grad
       losses.softmax_crossent losses.crossent losses.l2
       losses.softmax_crossent_cal_loss losses.softmax_crossent_cal_grad
       losses.crossent_cal_loss losses.crossent_cal_grad
       losses.l2_cal_loss losses.l2_cal_grad].

(** X1: no method of [module.py], and of [losses.py] none but
    [softmax_crossent.forward], overwrites an array that exists when it is
    called, whatever the state and whether it returns or raises: the input,
    the gradient and every cached array keep their contents. *)
Theorem only_softmax_crossent_forward_overwrites
    (keep_prob : R) (mask : ndarray) (x t : loc) (g : R) :
  Forall (λ C, keeps_arrays (net.c_setup C) ∧
               keeps_arrays (net.c_forward C x) ∧
               keeps_arrays (net.c_backward C x))
         (module_classes keep_prob mask) ∧
  keeps_arrays (net.set_target t) ∧
  keeps_arrays losses.Loss_init ∧
  keeps_arrays (losses.forward losses.crossent x t) ∧
  keeps_arrays (losses.forward losses.l2 x t) ∧
  Forall (λ C, keeps_arrays (losses.backward C g)) loss_classes.
Proof.
  unfold module_classes, loss_classes, net.set_target, losses.Loss_init.
  repeat match goal with
         | |- _ ∧ _ => split
         | |- Forall _ _ => constructor
         end;
    unfold_methods; frames.
Qed.

(** X2: in every state, and whether it returns or raises, no [forward] of
    [module.py] touches the Slot, nor does any method of a class without
    parameters or of a loss; [matmul.backward] and [add_biases.backward]
    leave the parameters alone and report at most one gradient per call,
    under [w] and [b]. *)
Theorem slot_is_touched_only_by_one_report
    (keep_prob : R) (mask : ndarray) (x t : loc) (g : R) :
  Forall (λ C, keeps_slot (net.c_forward C x)) (module_classes keep_prob mask) ∧
  Forall (λ C, keeps_slot (net.c_setup C) ∧ keeps_slot (net.c_backward C x))
         (stateless_classes keep_prob mask) ∧
  Forall (λ C, keeps_slot (losses.forward C x t) ∧ keeps_slot (losses.backward C g))
         loss_classes ∧
  reports_at_most_one "w" (net.c_backward net.matmul x) ∧
  reports_at_most_one "b" (net.c_backward net.add_biases x).
Proof.
  unfold module_classes, stateless_classes, loss_classes.
  repeat match goal with
         | |- _ ∧ _ => split
         | |- Forall _ _ => constructor
         end;
    unfold_methods; try solve [frames].
  - intros σ. split; [reflexivity|]. left. reflexivity.
  - apply reports_bind_r; [frames|]. intros _.
    apply reports_bind_l; [|intros ?; frames].
    apply reports_slot_set_grad. frames.
Qed.

(** ** sigmoid and relu *)

Lemma np_map_map (f g : R → R) (a : ndarray) :
  np_map f (np_map g a) = np_map (λ v, f (g v)) a.
Proof.
  unfold np_map. cbn. f_equal. rewrite map_map. apply map_ext. intros r.
  apply map_map.
Qed.

Lemma zip_with_map_r_rows {A B C D : Type} (f : A → C → D) (h : B → C)
    (l : list A) (k : list B) :
  zip_with f l (map h k) = zip_with (λ x y, f x (h y)) l k.
Proof.
  revert k. induction l as [|x l IH]; intros [|y k]; cbn; try reflexivity.
  rewrite IH. reflexivity.
Qed.

Lemma zip_with_map_l_rows {A B C D : Type} (f : C → B → D) (h : A → C)
    (l : list A) (k : list B) :
  zip_with f (map h l) k = zip_with (λ x y, f (h x) y) l k.
Proof.
  revert k. induction l as [|x l IH]; intros [|y k]; cbn; try reflexivity.
  rewrite IH. reflexivity.
Qed.

Lemma zip_with_ext_rows {A B C : Type} (f g : A → B → C) (l : list A) (k : list B) :
  (∀ x y, f x y = g x y) → zip_with f l k = zip_with g l k.
Proof.
  intros E. revert k. induction l as [|x l IH]; intros [|y k]; cbn; try reflexivity.
  rewrite IH, E. reflexivity.
Qed.

Lemma sigmoid_fn_range (v : R) : 0 < sigmoid_fn v < 1.
Proof.
  unfold sigmoid_fn. pose proof (exp_pos (- v)) as H.
  split.
  - apply Rdiv_lt_0_compat; lra.
  - apply (Rmult_lt_reg_r (1 + exp (- v))); [lra|].
    unfold Rdiv. rewrite Rmult_assoc, Rinv_l by lra. lra.
Qed.

Lemma sigmoid_fn_derivative (v : R) :
  derivable_pt_lim sigmoid_fn v (sigmoid_deriv v).
Proof.
  pose proof (exp_pos (- v)) as Hpos.
  assert (Hneg : derivable_pt_lim (comp exp (- id)%F) v (exp (- v) * - 1)).
  { apply (derivable_pt_lim_comp (- id)%F exp).
    - apply derivable_pt_lim_opp, derivable_pt_lim_id.
    - apply derivable_pt_lim_exp. }
  assert (Hden : derivable_pt_lim (fct_cte 1 + comp exp (- id)%F)%F v
                   (0 + exp (- v) * - 1)).
  { apply derivable_pt_lim_plus; [apply derivable_pt_lim_const|exact Hneg]. }
  assert (Hq : derivable_pt_lim (fct_cte 1 / (fct_cte 1 + comp exp (- id)%F))%F v
                 ((0 * (1 + exp (- v)) - (0 + exp (- v) * - 1) * 1)
                  / (1 + exp (- v))²)).
  { apply (derivable_pt_lim_div (fct_cte 1) (fct_cte 1 + comp exp (- id)%F)%F).
    - apply derivable_pt_lim_const.
    - exact Hden.
    - unfold plus_fct, fct_cte, comp, opp_fct, id. lra. }
  replace (sigmoid_deriv v)
    with ((0 * (1 + exp (- v)) - (0 + exp (- v) * - 1) * 1) / (1 + exp (- v))²).
  - exact Hq.
  - unfold sigmoid_deriv, sigmoid_fn, Rsqr. field. lra.
Qed.

Lemma sigmoid_forward_run (x : loc) (xv : ndarray) (σ : world) :
  heap σ !! x = Some xv →
  net.c_forward net.sigmoid x σ =
    (inr (VArr (fresh (dom (heap σ)))),
     mkworld (<[fresh (dom (heap σ)) := np_map sigmoid_fn xv]> (heap σ))
             (<["activation" := VArr (fresh (dom (heap σ)))]> (attrs σ))
             (slot σ)).
Proof.
  intros H. unfold_methods. mrun. rewrite !np_map_map. reflexivity.
Qed.

Lemma sigmoid_backward_run (grad l : loc) (gv av : ndarray) (σ : world) :
  attrs σ !! "activation" = Some (VArr l) →
  heap σ !! l = Some av → heap σ !! grad = Some gv →
  shape0 gv = shape0 av → shape1 gv = shape1 av →
  net.c_backward net.sigmoid grad σ =
    (inr (VArr (fresh (dom (heap σ)))),
     mkworld (<[fresh (dom (heap σ)) :=
                  mkarr (shape0 gv) (shape1 gv)
                    (zip_with (zip_with (λ g a, g * (a * (1 - a))))
                              (data gv) (data av))]> (heap σ))
             (attrs σ) (slot σ)).
Proof.
  intros Ha Hl Hg E0 E1.
  pose proof (np_bin_same Rmult av (np_map (λ v, 1 - v) av) eq_refl eq_refl) as Hp.
  pose proof (np_bin_same Rmult gv
                (mkarr (shape0 av) (shape1 av)
                   (zip_with (zip_with Rmult) (data av)
                             (data (np_map (λ v, 1 - v) av))))
                (eq_sym E0) (eq_sym E1)) as Hr.
  unfold_methods. mrun. do 3 f_equal. f_equal.
  cbn [np_map data]. rewrite zip_with_map_diag, zip_with_map_r_rows.
  apply zip_with_ext_rows. intros gr ar.
  rewrite zip_with_map_diag, zip_with_map_r_rows. reflexivity.
Qed.

(** X3: for an input and a gradient of one shape, [sigmoid.forward] returns
    [1/(1+exp(-x))] entry by entry, every entry between 0 and 1, and
    [sigmoid.backward] then returns the gradient multiplied, entry by
    entry, by the derivative of the logistic function at the input. *)
Theorem sigmoid_backward_is_chain_rule
    (σ : world) (x grad : loc) (xv gv : ndarray) :
  heap σ !! x = Some xv → heap σ !! grad = Some gv →
  shape0 gv = shape0 xv → shape1 gv = shape1 xv →
  ∃ (y : loc) (σ1 : world) (dx : loc) (σ2 : world),
    net.c_forward net.sigmoid x σ = (inr (VArr y), σ1) ∧
    heap σ1 !! y = Some (np_map sigmoid_fn xv) ∧
    Forall (Forall (λ a, 0 <= a <= 1)) (data (np_map sigmoid_fn xv)) ∧
    net.c_backward net.sigmoid grad σ1 = (inr (VArr dx), σ2) ∧
    heap σ2 !! dx =
      Some (mkarr (shape0 xv) (shape1 xv)
              (zip_with (zip_with (λ g v, g * sigmoid_deriv v)) (data gv) (data xv))) ∧
    ∀ v : R, derivable_pt_lim sigmoid_fn v (sigmoid_deriv v).
Proof.
  intros Hx Hg E0 E1. eexists _, _, _, _.
  split; [exact (sigmoid_forward_run x xv σ Hx)|].
  cbn [heap]. split; [apply lookup_insert_eq|]. split.
  { cbn. apply Forall_map, Forall_true. intros r.
    apply Forall_map, Forall_true. intros v.
    pose proof (sigmoid_fn_range v). lra. }
  split.
  { eapply (sigmoid_backward_run grad _ gv (np_map sigmoid_fn xv)); cbn [attrs heap].
    - apply lookup_insert_eq.
    - apply lookup_insert_eq.
    - apply lookup_alloc_old, Hg.
    - exact E0.
    - exact E1. }
  cbn [heap]. split; [|exact sigmoid_fn_derivative].
  rewrite lookup_insert_eq, E0, E1. do 2 f_equal.
  cbn [np_map data]. rewrite zip_with_map_r_rows.
  apply zip_with_ext_rows. intros gr r. rewrite zip_with_map_r_rows. reflexivity.
Qed.

Lemma sigmoid_backward_is_chain_rule_witness :
  ∃ (y : loc) (σ1 : world) (dx : loc) (σ2 : world),
    net.c_forward net.sigmoid 0%nat
      (new_module net.sigmoid {[0%nat := x_relu; 1%nat := g_relu]} empty_slot)
      = (inr (VArr y), σ1) ∧
    heap σ1 !! y = Some (np_map sigmoid_fn x_relu) ∧
    Forall (Forall (λ a, 0 <= a <= 1)) (data (np_map sigmoid_fn x_relu)) ∧
    net.c_backward net.sigmoid 1%nat σ1 = (inr (VArr dx), σ2) ∧
    heap σ2 !! dx =
      Some (mkarr 1 2
              (zip_with (zip_with (λ g v, g * sigmoid_deriv v))
                        (data g_relu) (data x_relu))) ∧
    ∀ v : R, derivable_pt_lim sigmoid_fn v (sigmoid_deriv v).
Proof.
  apply (sigmoid_backward_is_chain_rule
           (new_module net.sigmoid {[0%nat := x_relu; 1%nat := g_relu]} empty_slot)
           0%nat 1%nat x_relu g_relu); reflexivity.
Defined.

Lemma Rmax_0_idem (v : R) : Rmax 0 (Rmax 0 v) = Rmax 0 v.
Proof. apply Rmax_right, Rmax_l. Qed.

(** X4: [relu.forward] returns a new array holding [max(0, x)] entry by
    entry and caches that same array as the activation; no entry is
    negative; and running [forward] again on its own output returns an
    array with the same contents. *)
Theorem relu_forward_clamps_and_is_idempotent
    (σ : world) (x : loc) (xv : ndarray) :
  heap σ !! x = Some xv →
  ∃ (y : loc) (σ1 : world) (y' : loc) (σ2 : world),
    net.c_forward net.relu x σ = (inr (VArr y), σ1) ∧
    attrs σ1 !! "activation" = Some (VArr y) ∧
    heap σ1 !! y = Some (np_map (Rmax 0) xv) ∧
    heap σ1 !! x = Some xv ∧
    Forall (Forall (λ a, 0 <= a)) (data (np_map (Rmax 0) xv)) ∧
    net.c_forward net.relu y σ1 = (inr (VArr y'), σ2) ∧
    heap σ2 !! y' = Some (np_map (Rmax 0) xv).
Proof.
  intros Hx. eexists _, _, _, _.
  split; [exact (relu_forward_run x xv σ Hx)|]. cbn [attrs heap].
  split; [apply lookup_insert_eq|]. split; [apply lookup_insert_eq|].
  split; [apply lookup_alloc_old, Hx|]. split.
  { cbn. apply Forall_map, Forall_true. intros r.
    apply Forall_map, Forall_true. intros v. apply Rmax_l. }
  split.
  { apply relu_forward_run. cbn [heap]. apply lookup_insert_eq. }
  cbn [heap]. rewrite lookup_insert_eq, np_map_map. f_equal.
  unfold np_map. f_equal. apply map_ext. intros r. apply map_ext. intros v.
  apply Rmax_0_idem.
Qed.

Lemma relu_forward_clamps_and_is_idempotent_witness :
  ∃ (y : loc) (σ1 : world) (y' : loc) (σ2 : world),
    net.c_forward net.relu 0%nat
      (new_module net.relu {[0%nat := x_relu]} empty_slot) = (inr (VArr y), σ1) ∧
    attrs σ1 !! "activation" = Some (VArr y) ∧
    heap σ1 !! y = Some (np_map (Rmax 0) x_relu) ∧
    heap σ1 !! 0%nat = Some x_relu ∧
    Forall (Forall (λ a, 0 <= a)) (data (np_map (Rmax 0) x_relu)) ∧
    net.c_forward net.relu y σ1 = (inr (VArr y'), σ2) ∧
    heap σ2 !! y' = Some (np_map (Rmax 0) x_relu).
Proof.
  apply (relu_forward_clamps_and_is_idempotent
           (new_module net.relu {[0%nat := x_relu]} empty_slot) 0%nat x_relu).
  reflexivity.
Defined.

(** ** softmax.backward *)

Lemma zip_with_ext_Forall {A B C : Type} (P : A → Prop) (f g : A → B → C)
    (l : list A) (k : list B) :
  Forall P l → (∀ x y, P x → f x y = g x y) → zip_with f l k = zip_with g l k.
Proof.
  intros H E. revert k. induction H as [|x l Hx Hl IH]; intros [|y k]; cbn;
    try reflexivity.
  rewrite IH, (E x y Hx). reflexivity.
Qed.

(** A column of given values is broadcast along each row. *)
Lemma np_bin_colv (f : R → R → R) (a : ndarray) (cs : list R) :
  wf a →
  np_bin f a (mkarr (shape0 a) 1 (map (λ c, [c]) cs)) =
    inr (mkarr (shape0 a) (shape1 a)
           (zip_with (λ r c, map (λ v, f v c) r) (data a) cs)).
Proof.
  intros [_ Hw]. unfold np_bin. cbn [shape0 shape1 data].
  rewrite bdim_same, bdim_one. cbn.
  rewrite bzip_same, zip_with_map_r_rows. do 2 f_equal.
  apply (zip_with_ext_Forall _ _ _ _ _ Hw). intros r c Hr. apply bzip_one, Hr.
Qed.

Lemma softmax_backward_run (grad l : loc) (gv av : ndarray) (σ : world) :
  attrs σ !! "activation" = Some (VArr l) →
  heap σ !! l = Some av → heap σ !! grad = Some gv →
  wf gv → shape0 av = shape0 gv → shape1 av = shape1 gv →
  net.c_backward net.softmax grad σ =
    (inr (VArr (fresh (dom (heap σ)))),
     mkworld (<[fresh (dom (heap σ)) :=
                  mkarr (shape0 gv) (shape1 gv)
                    (zip_with softmax_backward_row (data gv) (data av))]> (heap σ))
             (attrs σ) (slot σ)).
Proof.
  intros Ha Hl Hg Hw E0 E1.
  pose proof (np_bin_same Rmult gv av E0 E1) as Hm.
  set (cs := map Rsum (zip_with (zip_with Rmult) (data gv) (data av))).
  pose proof (np_bin_colv Rminus gv cs Hw) as Hsub.
  pose proof (np_bin_same Rmult
                (mkarr (shape0 gv) (shape1 gv)
                   (zip_with (λ r c, map (λ v, v - c) r) (data gv) cs))
                av E0 E1) as Hr.
  unfold_methods. mrun. unfold np_sum1_keep. cbn [shape0 shape1 data].
  replace (map (λ r, [Rsum r]) (zip_with (zip_with Rmult) (data gv) (data av)))
    with (map (λ c, [c]) cs) by (unfold cs; rewrite map_map; reflexivity).
  mrun. do 3 f_equal. f_equal. cbn [data]. unfold cs. clear.
  generalize (data av). induction (data gv) as [|g G IH]; intros [|a A]; cbn;
    try reflexivity.
  rewrite IH. reflexivity.
Qed.

(** X5: after [softmax.forward] on [x], [softmax.backward] on a gradient of
    the shape of [x] returns an array of that shape whose row [i] is
    [(g − Σ g·a) · a], entry by entry, [g] being row [i] of the gradient
    and [a] row [i] of the activation [forward] has cached. *)
Theorem softmax_backward_uses_cached_rows
    (σ : world) (x grad : loc) (xv gv : ndarray) :
  heap σ !! x = Some xv → heap σ !! grad = Some gv →
  wf xv → wf gv → shape0 gv = shape0 xv → shape1 gv = shape1 xv →
  (0 < shape1 xv)%nat →
  ∃ (y : loc) (σ1 : world) (dx : loc) (σ2 : world) (d : ndarray),
    net.c_forward net.softmax x σ = (inr (VArr y), σ1) ∧
    heap σ1 !! y
      = Some (mkarr (shape0 xv) (shape1 xv) (map softmax_row (data xv))) ∧
    net.c_backward net.softmax grad σ1 = (inr (VArr dx), σ2) ∧
    heap σ2 !! dx = Some d ∧
    shape0 d = shape0 xv ∧ shape1 d = shape1 xv ∧
    data d = zip_with softmax_backward_row (data gv) (map softmax_row (data xv)).
Proof.
  intros Hx Hg Hwx Hwg E0 E1 Hk. eexists _, _, _, _, _.
  split; [exact (softmax_forward_run x xv σ Hx Hwx Hk)|].
  cbn [heap]. split; [apply lookup_insert_eq|]. split.
  { eapply (softmax_backward_run grad _ gv
              (mkarr (shape0 xv) (shape1 xv) (map softmax_row (data xv))));
      cbn [attrs heap shape0 shape1].
    - apply lookup_insert_eq.
    - apply lookup_insert_eq.
    - apply lookup_alloc_old, Hg.
    - exact Hwg.
    - congruence.
    - congruence. }
  cbn [heap]. split; [apply lookup_insert_eq|]. cbn [shape0 shape1 data].
  split; [exact E0|]. split; [exact E1|]. reflexivity.
Qed.

Lemma softmax_backward_uses_cached_rows_witness :
  ∃ (y : loc) (σ1 : world) (dx : loc) (σ2 : world) (d : ndarray),
    net.c_forward net.softmax 0%nat
      (new_module net.softmax {[0%nat := x_relu; 1%nat := g_relu]} empty_slot)
      = (inr (VArr y), σ1) ∧
    heap σ1 !! y = Some (mkarr 1 2 (map softmax_row (data x_relu))) ∧
    net.c_backward net.softmax 1%nat σ1 = (inr (VArr dx), σ2) ∧
    heap σ2 !! dx = Some d ∧
    shape0 d = 1%nat ∧ shape1 d = 2%nat ∧
    data d = zip_with softmax_backward_row (data g_relu) (map softmax_row (data x_relu)).
Proof.
  apply (softmax_backward_uses_cached_rows
           (new_module net.softmax {[0%nat := x_relu; 1%nat := g_relu]} empty_slot)
           0%nat 1%nat x_relu g_relu); try reflexivity.
  - split; [reflexivity|]. repeat constructor.
  - split; [reflexivity|]. repeat constructor.
  - cbn. lia.
Defined.

(** ** Forward of the parameterized modules *)

Lemma bzip_one_gen {A B : Type} (d : A) (n : nat) (g : A → A → B)
    (la : list A) (c : A) :
  length la = n → bzip d n 1 g la [c] = map (λ x, g x c) la.
Proof.
  intros H. unfold bzip. destruct (n =? 1)%nat eqn:E.
  - apply Nat.eqb_eq in E. subst n.
    destruct la as [|v [|w la]]; try discriminate. reflexivity.
  - reflexivity.
Qed.

(** A single row is broadcast down the rows. *)
Lemma np_bin_rowv (f : R → R → R) (a : ndarray) (bv : list R) :
  wf a →
  np_bin f a (mkarr 1 (shape1 a) [bv]) =
    inr (mkarr (shape0 a) (shape1 a) (map (λ r, zip_with f r bv) (data a))).
Proof.
  intros [Hn _]. unfold np_bin. cbn [shape0 shape1 data].
  rewrite bdim_one, bdim_same. cbn.
  rewrite (bzip_one_gen _ _ _ _ _ Hn). do 2 f_equal.
  apply map_ext. intros r. apply bzip_same.
Qed.

Lemma np_dot_entry (a b y : ndarray) (i j : nat) :
  np_dot a b = inr y → (i < length (data a))%nat → (j < shape1 b)%nat →
  entry i j y = dot_product (nth i (data a) []) (column j (data b)).
Proof.
  unfold np_dot. destruct (_ =? _)%nat; [|discriminate].
  intros [= <-] Hi Hj. unfold entry. cbn [data].
  set (F := λ r : list R,
              map (λ j0, dot_product r (column j0 (data b))) (seq 0 (shape1 b))).
  rewrite (nth_indep _ [] (F [])) by (rewrite length_map; exact Hi).
  rewrite map_nth. unfold F. rewrite (nth_map_seq _ 0 _ j) by exact Hj.
  reflexivity.
Qed.

(** X6: with a bias [b] of shape [[1, f]] in the Slot and a well-formed input
    of shape [[n, f]], [add_biases.forward] returns a new array of shape
    [[n, f]] in which [b] is added to every row; the input array and the
    Slot are as before. *)
Theorem add_biases_forward_adds_bias_to_every_row
    (σ : world) (x : loc) (xv : ndarray) (bv : list R) :
  attrs σ !! "_slot" = Some VSlot →
  heap σ !! x = Some xv → wf xv →
  params (slot σ) !! "b" = Some (mkarr 1 (shape1 xv) [bv]) →
  ∃ (y : loc) (σ1 : world),
    net.c_forward net.add_biases x σ = (inr (VArr y), σ1) ∧
    heap σ1 !! y =
      Some (mkarr (shape0 xv) (shape1 xv) (map (λ r, zip_with Rplus r bv) (data xv))) ∧
    heap σ1 !! x = Some xv ∧
    y ≠ x ∧
    slot σ1 = slot σ ∧ attrs σ1 = attrs σ.
Proof.
  intros Hs Hx Hw Hb. pose proof (np_bin_rowv Rplus xv bv Hw) as Hsum.
  eexists _, _. split.
  { unfold_methods. mrun. reflexivity. }
  cbn [heap slot attrs]. split; [apply lookup_insert_eq|].
  split; [apply lookup_alloc_old, Hx|]. split; [eapply fresh_other, Hx|].
  split; reflexivity.
Qed.

Lemma add_biases_forward_adds_bias_to_every_row_witness :
  ∃ (y : loc) (σ1 : world),
    net.c_forward net.add_biases 0%nat bias_world = (inr (VArr y), σ1) ∧
    heap σ1 !! y =
      Some (mkarr 2 3 (map (λ r, zip_with Rplus r [1; 1; 1]) (data x23))) ∧
    heap σ1 !! 0%nat = Some x23 ∧
    y ≠ 0%nat ∧
    slot σ1 = slot bias_world ∧ attrs σ1 = attrs bias_world.
Proof.
  apply (add_biases_forward_adds_bias_to_every_row bias_world 0%nat x23 [1; 1; 1]);
    try reflexivity.
  split; [reflexivity|]. repeat constructor.
Defined.

(** X7: with a weight [w] in the Slot whose row count is the column count of
    the input, [matmul.forward] returns a new array of shape
    [[rows of x, columns of w]] whose entry [(i, j)] is the product of row
    [i] of [x] and column [j] of [w], and caches the input array itself (not
    a copy) as [_x]. *)
Theorem matmul_forward_is_matrix_product
    (σ : world) (x : loc) (xv w : ndarray) :
  attrs σ !! "_slot" = Some VSlot →
  heap σ !! x = Some xv →
  params (slot σ) !! "w" = Some w →
  shape1 xv = shape0 w →
  ∃ (y : loc) (σ1 : world) (yv : ndarray),
    net.c_forward net.matmul x σ = (inr (VArr y), σ1) ∧
    heap σ1 !! y = Some yv ∧
    shape0 yv = shape0 xv ∧ shape1 yv = shape1 w ∧
    (∀ i j : nat, (i < length (data xv))%nat → (j < shape1 w)%nat →
       entry i j yv = dot_product (nth i (data xv) []) (column j (data w))) ∧
    attrs σ1 !! "_x" = Some (VArr x) ∧
    heap σ1 !! x = Some xv ∧
    slot σ1 = slot σ.
Proof.
  intros Hs Hx Hw E. pose proof (np_dot_ok xv w E) as Hy.
  eexists _, _, _. split; [exact (matmul_forward_run x xv w _ σ Hs Hx Hw Hy)|].
  cbn [heap attrs slot shape0 shape1]. split; [apply lookup_insert_eq|].
  split; [reflexivity|]. split; [reflexivity|]. split.
  { intros i j. apply np_dot_entry, Hy. }
  split; [apply lookup_insert_eq|]. split; [apply lookup_alloc_old, Hx|].
  reflexivity.
Qed.

Lemma matmul_forward_is_matrix_product_witness :
  ∃ (y : loc) (σ1 : world) (yv : ndarray),
    net.c_forward net.matmul 0%nat (matmul_world x23 w34 (ones 2 4))
      = (inr (VArr y), σ1) ∧
    heap σ1 !! y = Some yv ∧
    shape0 yv = 2%nat ∧ shape1 yv = 4%nat ∧
    (∀ i j : nat, (i < 2)%nat → (j < 4)%nat →
       entry i j yv = dot_product (nth i (data x23) []) (column j (data w34))) ∧
    attrs σ1 !! "_x" = Some (VArr 0%nat) ∧
    heap σ1 !! 0%nat = Some x23 ∧
    slot σ1 = slot (matmul_world x23 w34 (ones 2 4)).
Proof.
  apply (matmul_forward_is_matrix_product
           (matmul_world x23 w34 (ones 2 4)) 0%nat x23 w34); reflexivity.
Defined.

Lemma np_dot_mismatch (a b : ndarray) :
  shape1 a ≠ shape0 b → np_dot a b = inl ValueError.
Proof.
  intros H. unfold np_dot. destruct (_ =? _)%nat eqn:E; [|reflexivity].
  apply Nat.eqb_eq in E. contradiction.
Qed.

(** X8: when the Slot holds no [w], [matmul.forward] raises
    [UnknownParameter] for [w], having already replaced the cached input
    [_x] by the new one; when it holds no [b], [add_biases.forward] raises
    [UnknownParameter] for [b] and changes nothing. *)
Theorem forward_without_parameter (σ : world) (x : loc) :
  attrs σ !! "_slot" = Some VSlot →
  params (slot σ) !! "w" = None →
  params (slot σ) !! "b" = None →
  net.c_forward net.matmul x σ =
    (inl (UnknownParameter "w"), set_attrs (<["_x" := VArr x]> (attrs σ)) σ) ∧
  net.c_forward net.add_biases x σ = (inl (UnknownParameter "b"), σ).
Proof.
  intros Hs Hw Hb. split; unfold_methods; mrun; [reflexivity|].
  destruct σ; reflexivity.
Qed.

Lemma forward_without_parameter_witness :
  net.c_forward net.matmul 0%nat bare_world =
    (inl (UnknownParameter "w"),
     set_attrs (<["_x" := VArr 0%nat]> (attrs bare_world)) bare_world) ∧
  net.c_forward net.add_biases 0%nat bare_world
    = (inl (UnknownParameter "b"), bare_world).
Proof.
  apply (forward_without_parameter bare_world 0%nat); reflexivity.
Defined.

(** X9: when the column count of the input differs from the row count of
    [w], [matmul.forward] raises [ValueError] and the instance is left with
    the new input cached as [_x], whatever it had cached before; heap and
    Slot are unchanged. *)
Theorem matmul_failed_forward_replaces_cache
    (σ : world) (x : loc) (xv w : ndarray) :
  attrs σ !! "_slot" = Some VSlot →
  heap σ !! x = Some xv →
  params (slot σ) !! "w" = Some w →
  shape1 xv ≠ shape0 w →
  net.c_forward net.matmul x σ =
    (inl ValueError, set_attrs (<["_x" := VArr x]> (attrs σ)) σ).
Proof.
  intros Hs Hx Hw Hne. pose proof (np_dot_mismatch xv w Hne) as Hd.
  unfold_methods. mrun. rewrite Hd. reflexivity.
Qed.

Lemma matmul_failed_forward_replaces_cache_witness :
  net.c_forward net.matmul 1%nat (matmul_world x23 w34 g22) =
    (inl ValueError,
     set_attrs (<["_x" := VArr 1%nat]> (attrs (matmul_world x23 w34 g22)))
               (matmul_world x23 w34 g22)).
Proof.
  apply (matmul_failed_forward_replaces_cache
           (matmul_world x23 w34 g22) 1%nat g22 w34); try reflexivity.
  cbn. lia.
Defined.

(** ** drop *)

Lemma drop_forward_run (x : loc) (xv : ndarray) (kp : R) (mv : list R) (σ : world) :
  attrs σ !! "keep" = Some (VFloat kp) →
  heap σ !! x = Some xv → wf xv →
  let mask := mkarr 1 (shape1 xv) [mv] in
  let h1 := <[fresh (dom (heap σ)) := mask]> (heap σ) in
  net.drop_forward mask x σ =
    (inr (VArr (fresh (dom h1))),
     mkworld (<[fresh (dom h1) :=
                  mkarr (shape0 xv) (shape1 xv)
                    (map (λ r, zip_with (λ v m, v * m / kp) r mv) (data xv))]> h1)
             (<["r" := VArr (fresh (dom (heap σ)))]> (attrs σ))
             (slot σ)).
Proof.
  intros Hk Hx Hw mask h1. pose proof (np_bin_rowv Rmult xv mv Hw) as Hm.
  fold mask in Hm. unfold net.drop_forward. mrun. fold h1.
  do 3 f_equal. f_equal. unfold np_map. cbn [shape0 shape1 data]. f_equal.
  rewrite map_map. apply map_ext. intros r. clear.
  revert mv. induction r as [|v r IH]; intros [|m mv]; cbn; try reflexivity.
  rewrite IH. reflexivity.
Qed.

Lemma drop_backward_run (grad l : loc) (gv : ndarray) (kp : R) (mv : list R)
    (σ : world) :
  attrs σ !! "keep" = Some (VFloat kp) →
  attrs σ !! "r" = Some (VArr l) →
  heap σ !! l = Some (mkarr 1 (shape1 gv) [mv]) →
  heap σ !! grad = Some gv → wf gv →
  net.drop_backward grad σ =
    (inr (VArr (fresh (dom (heap σ)))),
     mkworld (<[fresh (dom (heap σ)) :=
                  mkarr (shape0 gv) (shape1 gv)
                    (map (λ r, zip_with (λ g m, g / kp * m) r mv) (data gv))]> (heap σ))
             (attrs σ) (slot σ)).
Proof.
  intros Hk Hr Hl Hg Hw.
  pose proof (np_bin_rowv Rmult (np_map (λ v, v / kp) gv) mv
                (wf_np_map _ gv Hw)) as Hm.
  cbn [np_map shape0 shape1] in Hm.
  unfold net.drop_backward. mrun. unfold np_map in *. mrun.
  do 3 f_equal. f_equal. cbn [data]. rewrite map_map. apply map_ext. intros r.
  apply zip_with_map_l_rows.
Qed.

Lemma drop_forward_backward
    (σ : world) (x grad : loc) (xv gv : ndarray) (kp : R) (mv : list R) :
  attrs σ !! "keep" = Some (VFloat kp) → kp ≠ 0 →
  heap σ !! x = Some xv → heap σ !! grad = Some gv →
  wf xv → wf gv → shape1 gv = shape1 xv → length mv = shape1 xv →
  ∃ (y : loc) (σ1 : world) (dx : loc) (σ2 : world),
    net.c_forward (net.drop kp (mkarr 1 (shape1 xv) [mv])) x σ
      = (inr (VArr y), σ1) ∧
    heap σ1 !! y =
      Some (mkarr (shape0 xv) (shape1 xv)
              (map (λ r, zip_with (λ v m, v * m / kp) r mv) (data xv))) ∧
    net.c_backward (net.drop kp (mkarr 1 (shape1 xv) [mv])) grad σ1
      = (inr (VArr dx), σ2) ∧
    heap σ2 !! dx =
      Some (mkarr (shape0 gv) (shape1 gv)
              (map (λ r, zip_with (λ g m, g / kp * m) r mv) (data gv))) ∧
    heap σ2 !! x = Some xv.
Proof.
  intros Hk _ Hx Hg Hwx Hwg E1 _. eexists _, _, _, _.
  split; [exact (drop_forward_run x xv kp mv σ Hk Hx Hwx)|].
  cbn [heap]. split; [apply lookup_insert_eq|]. split.
  { apply (drop_backward_run grad (fresh (dom (heap σ))) gv kp mv);
      cbn [attrs heap]; try assumption.
    - rewrite lookup_insert_ne by discriminate. exact Hk.
    - apply lookup_insert_eq.
    - rewrite E1. apply lookup_alloc_old, lookup_insert_eq.
    - do 2 apply lookup_alloc_old. exact Hg. }
  cbn [heap]. split; [apply lookup_insert_eq|].
  do 3 apply lookup_alloc_old. exact Hx.
Qed.

(** X11: given the draw [mask] of shape [[1, f]], [drop.forward] on a
    well-formed input of shape [[n, f]] returns [x * mask / keep], the mask
    being applied to every row, and [drop.backward] on a gradient with [f]
    columns returns [grad / keep * mask] with that same mask; the input is
    left as it was. *)
Theorem drop_backward_applies_forward_mask
    (σ : world) (x grad : loc) (xv gv : ndarray) (kp : R) (mv : list R) :
  attrs σ !! "keep" = Some (VFloat kp) → kp ≠ 0 →
  heap σ !! x = Some xv → heap σ !! grad = Some gv →
  wf xv → wf gv → shape1 gv = shape1 xv → length mv = shape1 xv →
  ∃ (y : loc) (σ1 : world) (dx : loc) (σ2 : world),
    net.c_forward (net.drop kp (mkarr 1 (shape1 xv) [mv])) x σ
      = (inr (VArr y), σ1) ∧
    heap σ1 !! y =
      Some (mkarr (shape0 xv) (shape1 xv)
              (map (λ r, zip_with (λ v m, v * m / kp) r mv) (data xv))) ∧
    net.c_backward (net.drop kp (mkarr 1 (shape1 xv) [mv])) grad σ1
      = (inr (VArr dx), σ2) ∧
    heap σ2 !! dx =
      Some (mkarr (shape0 gv) (shape1 gv)
              (map (λ r, zip_with (λ g m, g / kp * m) r mv) (data gv))) ∧
    heap σ2 !! x = Some xv.
Proof. exact (drop_forward_backward σ x grad xv gv kp mv). Qed.

Lemma drop_backward_applies_forward_mask_witness :
  ∃ (y : loc) (σ1 : world) (dx : loc) (σ2 : world),
    net.c_forward (net.drop (1 / 2) (mkarr 1 3 [[1; 0; 1]])) 0%nat
      (drop_world (1 / 2) (mkarr 1 3 [[1; 0; 1]])) = (inr (VArr y), σ1) ∧
    heap σ1 !! y =
      Some (mkarr 2 3
              (map (λ r, zip_with (λ v m, v * m / (1 / 2)) r [1; 0; 1]) (data x23))) ∧
    net.c_backward (net.drop (1 / 2) (mkarr 1 3 [[1; 0; 1]])) 1%nat σ1
      = (inr (VArr dx), σ2) ∧
    heap σ2 !! dx =
      Some (mkarr 2 3
              (map (λ r, zip_with (λ g m, g / (1 / 2) * m) r [1; 0; 1]) (data g23))) ∧
    heap σ2 !! 0%nat = Some x23.
Proof.
  apply (drop_backward_applies_forward_mask
           (drop_world (1 / 2) (mkarr 1 3 [[1; 0; 1]])) 0%nat 1%nat x23 g23
           (1 / 2) [1; 0; 1]); try reflexivity.
  - lra.
  - split; [reflexivity|]. repeat constructor.
  - split; [reflexivity|]. repeat constructor.
Defined.

Lemma zip_with_ones (k : R → R → R) (r : list R) :
  (∀ v, k v 1 = v) → zip_with k r (replicate (length r) 1) = r.
Proof.
  intros E. induction r as [|v r IH]; cbn; [reflexivity|].
  rewrite IH, E. reflexivity.
Qed.

Lemma rows_with_ones (k : R → R → R) (a : ndarray) :
  wf a → (∀ v, k v 1 = v) →
  mkarr (shape0 a) (shape1 a)
        (map (λ r, zip_with k r (replicate (shape1 a) 1)) (data a)) = a.
Proof.
  intros [_ Hw] E. destruct a as [n m rows]. cbn in *. f_equal.
  induction Hw as [|r rows Hr _ IH]; cbn; [reflexivity|].
  rewrite IH. f_equal. rewrite <- Hr. apply zip_with_ones, E.
Qed.

(** X12: with keep-probability 1, whose only draw is the all-ones mask,
    [drop.forward] returns an array with the contents of its input and
    [drop.backward] an array with the contents of the gradient. *)
Theorem drop_with_keep_one_is_identity
    (σ : world) (x grad : loc) (xv gv : ndarray) :
  attrs σ !! "keep" = Some (VFloat 1) →
  heap σ !! x = Some xv → heap σ !! grad = Some gv →
  wf xv → wf gv → shape1 gv = shape1 xv →
  ∃ (y : loc) (σ1 : world) (dx : loc) (σ2 : world),
    net.c_forward (net.drop 1 (ones 1 (shape1 xv))) x σ = (inr (VArr y), σ1) ∧
    heap σ1 !! y = Some xv ∧
    net.c_backward (net.drop 1 (ones 1 (shape1 xv))) grad σ1
      = (inr (VArr dx), σ2) ∧
    heap σ2 !! dx = Some gv.
Proof.
  intros Hk Hx Hg Hwx Hwg E1.
  destruct (drop_forward_backward σ x grad xv gv 1
              (replicate (shape1 xv) 1) Hk R1_neq_R0 Hx Hg Hwx Hwg E1
              (length_replicate _ _))
    as (y & σ1 & dx & σ2 & Hf & Hy & Hb & Hdx & _).
  exists y, σ1, dx, σ2. split; [exact Hf|]. split; [|split; [exact Hb|]].
  - rewrite Hy. f_equal. apply (rows_with_ones (λ v m, v * m / 1) xv Hwx).
    intros v. field.
  - rewrite Hdx. f_equal. rewrite <- E1.
    apply (rows_with_ones (λ g m, g / 1 * m) gv Hwg). intros v. field.
Qed.

Lemma drop_with_keep_one_is_identity_witness :
  ∃ (y : loc) (σ1 : world) (dx : loc) (σ2 : world),
    net.c_forward (net.drop 1 (ones 1 3)) 0%nat (drop_world 1 (ones 1 3))
      = (inr (VArr y), σ1) ∧
    heap σ1 !! y = Some x23 ∧
    net.c_backward (net.drop 1 (ones 1 3)) 1%nat σ1 = (inr (VArr dx), σ2) ∧
    heap σ2 !! dx = Some g23.
Proof.
  apply (drop_with_keep_one_is_identity (drop_world 1 (ones 1 3)) 0%nat 1%nat
           x23 g23); try reflexivity.
  - split; [reflexivity|]. repeat constructor.
  - split; [reflexivity|]. repeat constructor.
Defined.

(** ** Modules in sequence *)

Lemma row_max_shifted (r : list R) :
  r ≠ [] → row_max (map (λ v, v - row_max r) r) = 0.
Proof.
  intros Hr. pose proof (row_max_shift (- row_max r) r Hr) as H.
  unfold Rminus. rewrite H. ring.
Qed.

Lemma shifted_rows_idem (x : ndarray) :
  wf x → (0 < shape1 x)%nat → shifted_rows (shifted_rows x) = shifted_rows x.
Proof.
  intros Hw Hk. unfold shifted_rows. cbn [shape0 shape1 data]. f_equal.
  rewrite map_map.
  apply (map_ext_Forall _ _ _ _ (wf_rows_nonempty x Hw Hk)). intros r Hr.
  rewrite (row_max_shifted r Hr). rewrite map_map. apply map_ext. intros v. ring.
Qed.

Lemma loss_of_shifted_rows (x t : ndarray) :
  wf x → (0 < shape1 x)%nat →
  softmax_crossent_loss (shifted_rows x) t = softmax_crossent_loss x t.
Proof.
  intros Hw Hk. unfold softmax_crossent_loss, shifted_rows. cbn [data]. f_equal.
  pose proof (wf_rows_nonempty x Hw Hk) as HX. clear Hw Hk.
  generalize (data t). induction HX as [|r X Hr _ IH]; intros [|tr T]; cbn;
    try reflexivity.
  rewrite IH. f_equal. clear IH.
  rewrite <- !crossed_row. do 3 f_equal.
  exact (log_soft_row (row_max r) r Hr).
Qed.

(** X13: [softmax_crossent.forward] may be called again on the array it has
    already shifted: the second call returns the same loss as the first and
    leaves the array as the first call left it. *)
Theorem softmax_crossent_forward_twice
    (σ : world) (x t : loc) (xv tv : ndarray) :
  heap σ !! x = Some xv → heap σ !! t = Some tv → x ≠ t →
  wf xv → shape0 xv = shape0 tv → shape1 xv = shape1 tv →
  (0 < shape0 xv)%nat → (0 < shape1 xv)%nat →
  ∃ (v : R) (σ1 σ2 : world),
    losses.forward losses.softmax_crossent x t σ = (inr (VFloat v), σ1) ∧
    losses.forward losses.softmax_crossent x t σ1 = (inr (VFloat v), σ2) ∧
    v = softmax_crossent_loss xv tv ∧
    heap σ1 !! x = Some (shifted_rows xv) ∧
    heap σ2 !! x = Some (shifted_rows xv).
Proof.
  intros Hx Ht Hne Hw E0 E1 Hn Hk.
  destruct (softmax_crossent_forward_backward σ x t xv tv 1 Hx Ht Hne Hw E0 E1 Hn Hk)
    as (σ1 & _ & _ & Hf1 & _).
  assert (Hx1 : heap σ1 !! x = Some (shifted_rows xv)).
  { rewrite (softmax_crossent_forward_run x t xv tv σ Hx Ht Hne Hw E0 E1 Hk) in Hf1.
    injection Hf1 as _ <-. cbn [heap].
    apply lookup_alloc_old, lookup_insert_eq. }
  assert (Ht1 : heap σ1 !! t = Some tv).
  { rewrite (softmax_crossent_forward_run x t xv tv σ Hx Ht Hne Hw E0 E1 Hk) in Hf1.
    injection Hf1 as _ <-. cbn [heap].
    apply lookup_alloc_old. rewrite lookup_insert_ne by exact Hne. exact Ht. }
  pose proof (wf_shifted_rows xv Hw) as Hw1.
  destruct (softmax_crossent_forward_backward σ1 x t (shifted_rows xv) tv 1
              Hx1 Ht1 Hne Hw1 E0 E1 Hn Hk) as (σ2 & _ & _ & Hf2 & _).
  exists (softmax_crossent_loss xv tv), σ1, σ2.
  split; [exact Hf1|]. split.
  { rewrite Hf2, (loss_of_shifted_rows xv tv Hw Hk). reflexivity. }
  split; [reflexivity|]. split; [exact Hx1|].
  rewrite (softmax_crossent_forward_run x t (shifted_rows xv) tv σ1
             Hx1 Ht1 Hne Hw1 E0 E1 Hk) in Hf2.
  injection Hf2 as _ <-. cbn [heap].
  rewrite (shifted_rows_idem xv Hw Hk).
  apply lookup_alloc_old, lookup_insert_eq.
Qed.

Lemma softmax_crossent_forward_twice_witness :
  ∃ (v : R) (σ1 σ2 : world),
    losses.forward losses.softmax_crossent 0%nat 1%nat
      (new_loss {[0%nat := logits12; 1%nat := target01]}) = (inr (VFloat v), σ1) ∧
    losses.forward losses.softmax_crossent 0%nat 1%nat σ1 = (inr (VFloat v), σ2) ∧
    v = softmax_crossent_loss logits12 target01 ∧
    heap σ1 !! 0%nat = Some (shifted_rows logits12) ∧
    heap σ2 !! 0%nat = Some (shifted_rows logits12).
Proof.
  apply (softmax_crossent_forward_twice
           (new_loss {[0%nat := logits12; 1%nat := target01]})
           0%nat 1%nat logits12 target01); try reflexivity; try (cbn; lia).
  split; [reflexivity|]. repeat constructor.
Defined.

(** X15: when [softmax_crossent.forward] is given the array that
    [sigmoid.forward] returned, it shifts that array in place, and the array
    is the activation [sigmoid] has cached: [sigmoid.backward] then computes
    [grad * a * (1 - a)] from the shifted values [a], not from the
    activation.  The loss instance has its own attribute dictionary [dL]. *)
Theorem fused_loss_overwrites_cached_activation
    (σ : world) (x t grad : loc) (xv tv gv : ndarray) (dL : gmap string pyval) :
  heap σ !! x = Some xv → heap σ !! t = Some tv → heap σ !! grad = Some gv →
  wf xv → shape0 xv = shape0 tv → shape1 xv = shape1 tv →
  shape0 gv = shape0 xv → shape1 gv = shape1 xv →
  (0 < shape1 xv)%nat →
  ∃ (y : loc) (σ1 : world) (v : R) (σ2 : world) (dx : loc) (σ3 : world),
    net.c_forward net.sigmoid x σ = (inr (VArr y), σ1) ∧
    heap σ1 !! y = Some (np_map sigmoid_fn xv) ∧
    losses.forward losses.softmax_crossent y t (set_attrs dL σ1)
      = (inr (VFloat v), σ2) ∧
    attrs σ1 !! "activation" = Some (VArr y) ∧
    heap σ2 !! y = Some (shifted_rows (np_map sigmoid_fn xv)) ∧
    net.c_backward net.sigmoid grad (set_attrs (attrs σ1) σ2)
      = (inr (VArr dx), σ3) ∧
    heap σ3 !! dx =
      Some (mkarr (shape0 gv) (shape1 gv)
              (zip_with (zip_with (λ g a, g * (a * (1 - a))))
                        (data gv) (data (shifted_rows (np_map sigmoid_fn xv))))).
Proof.
  intros Hx Ht Hg Hw E0 E1 G0 G1 Hk.
  pose proof (wf_np_map sigmoid_fn xv Hw) as Hwa.
  eexists _, _, _, _, _, _. split; [exact (sigmoid_forward_run x xv σ Hx)|].
  cbn [heap attrs]. split; [apply lookup_insert_eq|]. split.
  { apply (softmax_crossent_forward_run _ t (np_map sigmoid_fn xv) tv);
      cbn [heap set_attrs np_map shape0 shape1]; try assumption.
    - apply lookup_insert_eq.
    - apply lookup_alloc_old, Ht.
    - eapply fresh_other, Ht. }
  split; [apply lookup_insert_eq|]. cbn [heap set_attrs attrs].
  split; [apply lookup_alloc_old, lookup_insert_eq|]. split.
  { apply (sigmoid_backward_run grad (fresh (dom (heap σ))) gv
             (shifted_rows (np_map sigmoid_fn xv)));
      cbn [heap attrs shape0 shape1 shifted_rows np_map]; try assumption.
    - apply lookup_insert_eq.
    - apply lookup_alloc_old, lookup_insert_eq.
    - apply lookup_alloc_old. rewrite lookup_insert_ne.
      + apply lookup_alloc_old, Hg.
      + eapply fresh_other, Hg. }
  cbn [heap]. apply lookup_insert_eq.
Qed.

Lemma fused_loss_overwrites_cached_activation_witness :
  ∃ (y : loc) (σ1 : world) (v : R) (σ2 : world) (dx : loc) (σ3 : world),
    net.c_forward net.sigmoid 0%nat
      (new_module net.sigmoid
         {[0%nat := logits12; 1%nat := target01; 2%nat := g_relu]} empty_slot)
      = (inr (VArr y), σ1) ∧
    heap σ1 !! y = Some (np_map sigmoid_fn logits12) ∧
    losses.forward losses.softmax_crossent y 1%nat (set_attrs ∅ σ1)
      = (inr (VFloat v), σ2) ∧
    attrs σ1 !! "activation" = Some (VArr y) ∧
    heap σ2 !! y = Some (shifted_rows (np_map sigmoid_fn logits12)) ∧
    net.c_backward net.sigmoid 2%nat (set_attrs (attrs σ1) σ2)
      = (inr (VArr dx), σ3) ∧
    heap σ3 !! dx =
      Some (mkarr 1 2
              (zip_with (zip_with (λ g a, g * (a * (1 - a))))
                        (data g_relu)
                        (data (shifted_rows (np_map sigmoid_fn logits12))))).
Proof.
  apply (fused_loss_overwrites_cached_activation
           (new_module net.sigmoid
              {[0%nat := logits12; 1%nat := target01; 2%nat := g_relu]} empty_slot)
           0%nat 1%nat 2%nat logits12 target01 g_relu ∅); try reflexivity.
  - split; [reflexivity|]. repeat constructor.
  - cbn. lia.
Defined.

(** ** More on the losses *)

Lemma np_bin_mismatch (f : R → R → R) (a b : ndarray) :
  shape0 a ≠ shape0 b → shape0 a ≠ 1%nat → shape0 b ≠ 1%nat →
  np_bin f a b = inl ValueError.
Proof.
  intros H H1 H2. unfold np_bin, bdim.
  destruct (shape0 a =? shape0 b)%nat eqn:E; [apply Nat.eqb_eq in E; contradiction|].
  destruct (shape0 a =? 1)%nat eqn:Ea; [apply Nat.eqb_eq in Ea; contradiction|].
  destruct (shape0 b =? 1)%nat eqn:Eb; [apply Nat.eqb_eq in Eb; contradiction|].
  reflexivity.
Qed.

(** X17: on logits with rows but no columns, [softmax_crossent.forward]
    raises [ValueError] (the row maximum of an empty row), having stored the
    target and changed nothing else. *)
Theorem softmax_crossent_forward_without_classes
    (σ : world) (x t : loc) (xv : ndarray) :
  heap σ !! x = Some xv → (0 < shape0 xv)%nat → shape1 xv = 0%nat →
  losses.forward losses.softmax_crossent x t σ =
    (inl ValueError, set_attrs (<["_t" := VArr t]> (attrs σ)) σ).
Proof.
  intros Hx _ Hk. unfold_methods. mrun. unfold np_max1_keep. rewrite Hk.
  reflexivity.
Qed.

Lemma softmax_crossent_forward_without_classes_witness :
  losses.forward losses.softmax_crossent 0%nat 1%nat
    (new_loss {[0%nat := no_columns; 1%nat := no_columns]}) =
    (inl ValueError,
     set_attrs (<["_t" := VArr 1%nat]>
                  (attrs (new_loss {[0%nat := no_columns; 1%nat := no_columns]})))
               (new_loss {[0%nat := no_columns; 1%nat := no_columns]})).
Proof.
  apply (softmax_crossent_forward_without_classes
           (new_loss {[0%nat := no_columns; 1%nat := no_columns]})
           0%nat 1%nat no_columns); try reflexivity.
  cbn. lia.
Defined.

(** X18: when the stored target has no rows, [softmax_crossent.backward]
    raises [ZeroDivisionError] on [1. / batch_size] and changes nothing. *)
Theorem softmax_crossent_backward_on_empty_batch
    (σ : world) (t : loc) (tv : ndarray) (g : R) :
  attrs σ !! "_t" = Some (VArr t) → heap σ !! t = Some tv →
  shape0 tv = 0%nat →
  losses.backward losses.softmax_crossent g σ = (inl ZeroDivisionError, σ).
Proof.
  intros Ha Ht Hn. unfold_methods. mrun. unfold py_div. rewrite Hn. cbn [INR].
  destruct (Req_dec_T 0 0) as [_|H]; [reflexivity|contradiction].
Qed.

Lemma softmax_crossent_backward_on_empty_batch_witness :
  let σ := (losses.forward losses.softmax_crossent 0%nat 1%nat
              (new_loss {[0%nat := no_rows; 1%nat := no_rows]})).2 in
  losses.backward losses.softmax_crossent 1 σ = (inl ZeroDivisionError, σ).
Proof.
  cbv zeta.
  rewrite (softmax_crossent_forward_run 0%nat 1%nat no_rows no_rows);
    [|reflexivity|reflexivity|discriminate|split; [reflexivity|constructor]
     |reflexivity|reflexivity|cbn; lia].
  cbv zeta. cbn [snd].
  apply (softmax_crossent_backward_on_empty_batch _ 1%nat no_rows 1).
  - cbn [attrs]. rewrite lookup_insert_ne by discriminate. apply lookup_insert_eq.
  - cbn [heap]. apply lookup_alloc_old. rewrite lookup_insert_ne by discriminate.
    reflexivity.
  - reflexivity.
Defined.

(** X19: [l2.forward] stores the target before it computes the difference:
    when prediction and target have row counts that do not broadcast, it
    raises [ValueError] with the new target stored and the old [_diff] still
    cached, and a following [backward] returns [grad * diff] for that old
    difference instead of raising. *)
Theorem l2_backward_after_failed_forward_is_stale
    (σ : world) (x t dl : loc) (xv tv d : ndarray) (g : R) :
  attrs σ !! "_diff" = Some (VArr dl) → heap σ !! dl = Some d →
  heap σ !! x = Some xv → heap σ !! t = Some tv →
  shape0 xv ≠ shape0 tv → shape0 xv ≠ 1%nat → shape0 tv ≠ 1%nat →
  ∃ (σ1 : world) (l : loc) (σ2 : world),
    losses.forward losses.l2 x t σ = (inl ValueError, σ1) ∧
    attrs σ1 !! "_t" = Some (VArr t) ∧
    losses.backward losses.l2 g σ1 = (inr (VPair (VArr l) VNone), σ2) ∧
    heap σ2 !! l = Some (np_map (Rmult g) d).
Proof.
  intros Ha Hd Hx Ht H0 H1 H2.
  pose proof (np_bin_mismatch Rminus xv tv H0 H1 H2) as Hm.
  eexists _, _, _. split.
  { unfold_methods. mrun. rewrite Hm. reflexivity. }
  cbn [attrs set_attrs]. split; [apply lookup_insert_eq|]. split.
  { apply (l2_backward_run g dl d); cbn [attrs heap set_attrs].
    - rewrite lookup_insert_ne by discriminate. exact Ha.
    - exact Hd. }
  cbn [heap set_attrs]. apply lookup_insert_eq.
Qed.

Lemma l2_backward_after_failed_forward_is_stale_witness :
  let σ := (losses.forward losses.l2 0%nat 1%nat
              (new_loss {[0%nat := x_l2; 1%nat := t_l2; 2%nat := x23; 3%nat := x31]})).2 in
  ∃ (d : ndarray) (σ1 : world) (l : loc) (σ2 : world),
    losses.forward losses.l2 2%nat 3%nat σ = (inl ValueError, σ1) ∧
    attrs σ1 !! "_t" = Some (VArr 3%nat) ∧
    losses.backward losses.l2 1 σ1 = (inr (VPair (VArr l) VNone), σ2) ∧
    heap σ2 !! l = Some (np_map (Rmult 1) d).
Proof.
  intros σ.
  exists (mkarr 1 1 (zip_with (zip_with Rminus) (data x_l2) (data t_l2))).
  apply (l2_backward_after_failed_forward_is_stale σ 2%nat 3%nat
           (fresh (dom (heap (new_loss
              {[0%nat := x_l2; 1%nat := t_l2; 2%nat := x23; 3%nat := x31]}))))
           x23 x31).
  - unfold σ.
    rewrite (l2_forward_run 0%nat 1%nat x_l2 t_l2) by reflexivity.
    cbn [snd attrs]. apply lookup_insert_eq.
  - unfold σ.
    rewrite (l2_forward_run 0%nat 1%nat x_l2 t_l2) by reflexivity.
    cbn [snd heap]. apply lookup_insert_eq.
  - unfold σ.
    rewrite (l2_forward_run 0%nat 1%nat x_l2 t_l2) by reflexivity.
    cbn [snd heap]. apply lookup_alloc_old. reflexivity.
  - unfold σ.
    rewrite (l2_forward_run 0%nat 1%nat x_l2 t_l2) by reflexivity.
    cbn [snd heap]. apply lookup_alloc_old. reflexivity.
  - cbn. lia.
  - cbn. lia.
  - cbn. lia.
Defined.

Lemma crossent_rows (X T : list (list R)) :
  map Rsum (map (map Ropp) (zip_with (zip_with Rmult) T (map (map ln) X)))
  = zip_with (λ xr tr, Rsum (zip_with (λ xv tv, - tv * ln xv) xr tr)) X T.
Proof.
  rewrite map_map. revert T.
  induction X as [|r X IH]; intros [|tr T]; cbn; try reflexivity.
  rewrite IH. f_equal. clear.
  revert tr. induction r as [|v r IH]; intros [|w tr]; cbn; try reflexivity.
  specialize (IH tr). unfold Rsum in IH. rewrite IH. ring.
Qed.

(** X20: on a prediction with positive entries and a target of its shape,
    with at least one row, [crossent.forward] returns the mean over the
    batch of the row sums of [-t ⊙ ln x]; it keeps the prediction and
    target arrays themselves, not copies, as [_x] and [_t], and changes no
    array. *)
Theorem crossent_forward_is_cross_entropy
    (σ : world) (x t : loc) (xv tv : ndarray) :
  heap σ !! x = Some xv → heap σ !! t = Some tv →
  wf xv → wf tv → shape0 xv = shape0 tv → shape1 xv = shape1 tv →
  (0 < shape0 xv)%nat → positive xv →
  ∃ σ1 : world,
    losses.forward losses.crossent x t σ
      = (inr (VFloat (crossent_loss xv tv)), σ1) ∧
    attrs σ1 !! "_x" = Some (VArr x) ∧ attrs σ1 !! "_t" = Some (VArr t) ∧
    heap σ1 = heap σ.
Proof.
  intros Hx Ht _ _ E0 E1 _ Hp. eexists. split.
  { rewrite (crossent_forward_run x t xv tv σ Hx Ht E0 E1 Hp). do 3 f_equal.
    unfold crossent_loss. f_equal. apply crossent_rows. }
  cbn [attrs heap]. split; [apply lookup_insert_eq|].
  split; [|reflexivity]. rewrite lookup_insert_ne by discriminate.
  apply lookup_insert_eq.
Qed.

Lemma crossent_forward_is_cross_entropy_witness :
  ∃ σ1 : world,
    losses.forward losses.crossent 0%nat 1%nat
      (new_loss {[0%nat := x_half; 1%nat := target10]})
      = (inr (VFloat (crossent_loss x_half target10)), σ1) ∧
    attrs σ1 !! "_x" = Some (VArr 0%nat) ∧ attrs σ1 !! "_t" = Some (VArr 1%nat) ∧
    heap σ1 = heap (new_loss {[0%nat := x_half; 1%nat := target10]}).
Proof.
  apply (crossent_forward_is_cross_entropy
           (new_loss {[0%nat := x_half; 1%nat := target10]})
           0%nat 1%nat x_half target10); try reflexivity.
  - split; [reflexivity|]. repeat constructor.
  - split; [reflexivity|]. repeat constructor.
  - cbn. lia.
  - repeat constructor; lra.
Defined.

Lemma zip_with_then_map {A B C D : Type} (f : A → B → C) (h : C → D)
    (l : list A) (k : list B) :
  map h (zip_with f l k) = zip_with (λ x y, h (f x y)) l k.
Proof.
  revert k. induction l as [|x l IH]; intros [|y k]; cbn; try reflexivity.
  rewrite IH. reflexivity.
Qed.

Lemma l2_rows (X T : list (list R)) :
  map Rsum (map (map (λ v, v ^ 2)) (zip_with (zip_with Rminus) X T))
  = zip_with (λ xr tr, Rsum (zip_with (λ a b, (a - b) ^ 2) xr tr)) X T.
Proof.
  rewrite map_map, zip_with_then_map. apply zip_with_ext_rows. intros r tr.
  rewrite zip_with_then_map. reflexivity.
Qed.

Lemma Rsum_nonneg (l : list R) : Forall (λ v, 0 <= v) l → 0 <= Rsum l.
Proof.
  induction 1 as [|v l Hv _ IH]; cbn; [lra|]. unfold Rsum in IH. lra.
Qed.

Lemma l2_loss_nonneg (x t : ndarray) :
  (0 < shape0 x)%nat → (0 < shape1 x)%nat → 0 <= l2_loss x t.
Proof.
  intros Hn Hk. unfold l2_loss. apply Rmult_le_pos.
  - apply Rsum_nonneg. generalize (data t).
    induction (data x) as [|r X IH]; intros [|tr T]; cbn; constructor; [|apply IH].
    apply Rsum_nonneg. clear. revert tr.
    induction r as [|v r IH]; intros [|w tr]; cbn; constructor; [|apply IH].
    apply pow2_ge_0.
  - left. apply Rinv_0_lt_compat, lt_0_INR. nia.
Qed.

(** X21: on a prediction and a target of one shape with at least one entry,
    [l2.forward] returns the mean of [(x - t)²] over all entries, which is
    not negative, and caches the difference in an array of its own:
    whatever the caller writes into the prediction and target arrays
    afterwards, [l2.backward] returns [grad * (x - t)] for the values they
    held at [forward]. *)
Theorem l2_gradient_is_taken_from_the_cached_difference
    (σ : world) (x t : loc) (xv tv : ndarray) (g : R) :
  heap σ !! x = Some xv → heap σ !! t = Some tv →
  shape0 tv = shape0 xv → shape1 tv = shape1 xv →
  (0 < shape0 xv)%nat → (0 < shape1 xv)%nat →
  ∃ σ1 : world,
    losses.forward losses.l2 x t σ = (inr (VFloat (l2_loss xv tv)), σ1) ∧
    0 <= l2_loss xv tv ∧
    ∀ x' t' : ndarray, ∃ (l : loc) (σ2 : world),
      losses.backward losses.l2 g
        (set_heap (<[x := x']> (<[t := t']> (heap σ1))) σ1)
        = (inr (VPair (VArr l) VNone), σ2) ∧
      heap σ2 !! l =
        Some (mkarr (shape0 xv) (shape1 xv)
                (zip_with (zip_with (λ a b, g * (a - b))) (data xv) (data tv))).
Proof.
  intros Hx Ht E0 E1 Hn Hk. eexists. split; [|split].
  - rewrite (l2_forward_run x t xv tv σ Hx Ht E0 E1). cbv zeta. do 3 f_equal.
    unfold np_mean_all, l2_loss, np_map. cbn [shape0 shape1 data].
    rewrite l2_rows. reflexivity.
  - apply l2_loss_nonneg; assumption.
  - intros x' t'. eexists _, _. split.
    + eapply l2_backward_run; cbn [attrs heap set_heap].
      * apply lookup_insert_eq.
      * rewrite lookup_insert_ne; [rewrite lookup_insert_ne|].
        -- apply lookup_insert_eq.
        -- intros E. symmetry in E. revert E. eapply fresh_other, Ht.
        -- intros E. symmetry in E. revert E. eapply fresh_other, Hx.
    + cbn [heap]. rewrite lookup_insert_eq. f_equal.
      unfold np_map. cbn [shape0 shape1 data]. f_equal.
      rewrite zip_with_then_map. apply zip_with_ext_rows. intros r tr.
      apply zip_with_then_map.
Qed.

Lemma l2_gradient_is_taken_from_the_cached_difference_witness :
  ∃ σ1 : world,
    losses.forward losses.l2 0%nat 1%nat (new_loss {[0%nat := x_l2; 1%nat := t_l2]})
      = (inr (VFloat (l2_loss x_l2 t_l2)), σ1) ∧
    0 <= l2_loss x_l2 t_l2 ∧
    ∀ x' t' : ndarray, ∃ (l : loc) (σ2 : world),
      losses.backward losses.l2 1
        (set_heap (<[0%nat := x']> (<[1%nat := t']> (heap σ1))) σ1)
        = (inr (VPair (VArr l) VNone), σ2) ∧
      heap σ2 !! l =
        Some (mkarr 1 1
                (zip_with (zip_with (λ a b, 1 * (a - b))) (data x_l2) (data t_l2))).
Proof.
  apply (l2_gradient_is_taken_from_the_cached_difference
           (new_loss {[0%nat := x_l2; 1%nat := t_l2]}) 0%nat 1%nat x_l2 t_l2 1);
    try reflexivity; cbn; lia.
Defined.

(** X22: [softmax_crossent] keeps the target array itself, not a copy: when
    the caller overwrites the target after [forward], [backward] returns
    [g * (softmax x - t') / batch_size] for the new contents [t'], with the
    softmax of the logits seen at [forward]. *)
Theorem softmax_crossent_backward_reads_current_target
    (σ : world) (x t : loc) (xv tv tv' : ndarray) (g : R) :
  heap σ !! x = Some xv → heap σ !! t = Some tv → x ≠ t →
  wf xv → shape0 xv = shape0 tv → shape1 xv = shape1 tv →
  shape0 tv' = shape0 tv → shape1 tv' = shape1 tv →
  (0 < shape0 xv)%nat → (0 < shape1 xv)%nat →
  ∃ (v : R) (σ1 : world) (l : loc) (σ2 : world),
    losses.forward losses.softmax_crossent x t σ = (inr (VFloat v), σ1) ∧
    losses.backward losses.softmax_crossent g
      (set_heap (<[t := tv']> (heap σ1)) σ1)
      = (inr (VPair (VArr l) VNone), σ2) ∧
    heap σ2 !! l = Some (softmax_crossent_grad g xv tv').
Proof.
  intros Hx Ht Hne Hw E0 E1 F0 F1 Hn Hk.
  pose proof (wf_rows_nonempty xv Hw Hk) as HX.
  eexists _, _, _, _.
  split; [exact (softmax_crossent_forward_run x t xv tv σ Hx Ht Hne Hw E0 E1 Hk)|].
  cbv zeta. split.
  { eapply (softmax_crossent_backward_run g t _ tv' (log_soft_rows xv));
      cbn [attrs heap set_heap].
    - rewrite lookup_insert_ne by discriminate. apply lookup_insert_eq.
    - apply lookup_insert_eq.
    - apply lookup_insert_eq.
    - rewrite lookup_insert_ne; [apply lookup_insert_eq|].
      intros E. symmetry in E. revert E. apply fresh_other with tv.
      rewrite lookup_insert_ne by exact Hne. exact Ht.
    - cbn. congruence.
    - cbn. congruence.
    - lia. }
  cbn [heap]. rewrite lookup_insert_eq. f_equal.
  unfold softmax_crossent_grad, np_map.
  cbn [shape0 shape1 data log_soft_rows shifted_rows]. f_equal.
  apply (grad_rows _ g (INR (shape0 xv)) (data xv) (data tv') HX).
  rewrite F0, <- E0. reflexivity.
Qed.

Lemma softmax_crossent_backward_reads_current_target_witness :
  ∃ (v : R) (σ1 : world) (l : loc) (σ2 : world),
    losses.forward losses.softmax_crossent 0%nat 1%nat
      (new_loss {[0%nat := logits12; 1%nat := target01]}) = (inr (VFloat v), σ1) ∧
    losses.backward losses.softmax_crossent 1
      (set_heap (<[1%nat := target_later]> (heap σ1)) σ1)
      = (inr (VPair (VArr l) VNone), σ2) ∧
    heap σ2 !! l = Some (softmax_crossent_grad 1 logits12 target_later).
Proof.
  apply (softmax_crossent_backward_reads_current_target
           (new_loss {[0%nat := logits12; 1%nat := target01]})
           0%nat 1%nat logits12 target01 target_later 1);
    try reflexivity; try (cbn; lia).
  split; [reflexivity|]. repeat constructor.
Defined.

(** ** The losses of [module.py] *)








(** ** The class registry *)

Lemma module_class_factory_lookup (name : string) :
  module_class_factory name = _module_class_factory !! name.
Proof.
  unfold module_class_factory, module_types. destruct (decide _) as [|H]; [reflexivity|].
  symmetry. apply not_elem_of_dom, H.
Qed.

Lemma module_class_factory_entry (name : string) (c : module_class) :
  module_class_factory name = Some c →
  (name, c) ∈ [("reshape", Creshape); ("sigmoid", Csigmoid); ("softmax", Csoftmax);
               ("drop", Cdrop); ("linear", Clinear); ("relu", Crelu);
               ("bias", Cadd_biases); ("dot", Cmatmul); ("crossent", Ccrossent);
               ("l2", Cl2)].
Proof.
  rewrite module_class_factory_lookup. unfold _module_class_factory.
  apply elem_of_list_to_map_2.
Qed.

(** X25: [module_class_factory] hands out a class for exactly the ten
    registered names and fails its assertion for every other name; the
    layer classes [add_biases] and [matmul] are registered as ["bias"] and
    ["dot"], not under their own names, [softmax_crossent] is not registered
    at all, and no class is registered under two names. *)
Theorem module_class_factory_registry :
  (∀ name : string,
     is_Some (module_class_factory name) ↔
     name ∈ ["reshape"; "sigmoid"; "softmax"; "drop"; "linear"; "relu"; "bias";
             "dot"; "crossent"; "l2"]) ∧
  (∀ (n1 n2 : string) (c : module_class),
     module_class_factory n1 = Some c → module_class_factory n2 = Some c →
     n1 = n2) ∧
  module_class_factory "bias" = Some Cadd_biases ∧
  module_class_factory "dot" = Some Cmatmul ∧
  module_class_factory "add_biases" = None ∧
  module_class_factory "matmul" = None ∧
  module_class_factory "softmax_crossent" = None ∧
  size module_types = 10%nat.
Proof.
  split; [|split].
  - intros name. rewrite module_class_factory_lookup, <- elem_of_dom.
    unfold _module_class_factory. rewrite dom_list_to_map_L, elem_of_list_to_set.
    reflexivity.
  - intros n1 n2 c H1 H2.
    apply module_class_factory_entry in H1, H2.
    rewrite !elem_of_cons, elem_of_nil in H1, H2.
    intuition congruence.
  - repeat split; vm_compute; reflexivity.
Qed.
